(** * gosnmp: the walk engines and the request dispatch of [gosnmp.go]

    A shallow embedding of [src/gosnmp.go].  Go functions that talk to
    the network become computations in a state monad over a [World]
    (the state of the peer behind the connection, the result channels
    and two ghost logs of what was dispatched and written); a Go panic
    is an outcome of its own, so that [defer]/[recover] can be modelled
    as written.  The unbounded [for] loop of the sequential walk and
    the recursion of the bulk walk take a fuel argument. *)

From Stdlib Require Import ZArith List Bool Lia.
From Stdlib.Strings Require Import String Ascii Byte.
From Stdlib Require Import DecimalString.
Import ListNotations.
Open Scope string_scope.
Open Scope list_scope.
Open Scope Z_scope.

Set Implicit Arguments.

(** ** Go runtime values *)

(** Go's [error] built by [fmt.Errorf]: only the message is observable. *)
Definition error := string.

Definition bytes := list byte.

(** The line feed that ends most of the error messages of the source. *)
Definition nl : string := String (ascii_of_nat 10) EmptyString.

(** [strings.Index s substr]: the index of the first instance of
    [substr] in [s], or -1. *)
Definition strings_Index (s substr : string) : Z :=
  match String.index 0 substr s with
  | Some n => Z.of_nat n
  | None => -1
  end.

(** [strings.HasPrefix s prefix]. *)
Definition strings_HasPrefix (s prefix : string) : bool :=
  String.prefix prefix s.

(** ** Data model: declarations that live outside [gosnmp.go] *)

(** Modelled from the spec: the type tag of a variable binding is
    declared outside src/ ("at minimum Null, plus agent-defined value
    types, plus a sentinel value meaning end of tree");
    [UnknownType] is the zero value of the tag. *)
Inductive Asn1BER : Type :=
| UnknownType
| Null
| Integer
| OctetString
| ObjectIdentifier
| EndOfMibView.

(** Modelled from the spec: the dynamic value of a binding (Go's
    [interface{}]) is declared outside src/; [VNil] is the unset value. *)
Inductive value : Type :=
| VNil
| VStr (s : string)
| VInt (z : Z).

(** Modelled from the spec: the variable binding ("an object-identifier
    string, a type tag and a value"), declared outside src/. *)
Record SnmpPDU : Type := mkPDU {
  Name : string;
  Type_ : Asn1BER;
  Value : value
}.

(** The zero value of [SnmpPDU], as [make([]SnmpPDU, n)] fills it in. *)
Definition zeroPDU : SnmpPDU := mkPDU "" UnknownType VNil.

(** Modelled from the spec: the operation kind ("enumerated: Get,
    GetNext, GetBulk"), declared outside src/; [NoRequest] is the zero
    value held by a freshly allocated packet. *)
Inductive MessageType : Type :=
| NoRequest
| GetRequest
| GetNextRequest
| GetBulkRequest.

Definition SnmpVersion := Z.

Module Packet.
(** Modelled from the spec: the request/response packet ("community
    string, protocol version tag, operation kind, error code, error
    index, non-repeater count, max-repetitions count, and an ordered
    sequence of Variable Bindings"), declared outside src/. *)
Record SnmpPacket : Type := mk {
  Version : SnmpVersion;
  Community : string;
  RequestType : MessageType;
  Error : Z;
  ErrorIndex : Z;
  NonRepeaters : Z;
  MaxRepetitions : Z;
  Variables : list SnmpPDU
}.

(** [new(SnmpPacket)]: every field holds its zero value. *)
Definition new : SnmpPacket := mk 0 "" NoRequest 0 0 0 0 [].

Definition setVersion (v : SnmpVersion) (p : SnmpPacket) :=
  mk v (Community p) (RequestType p) (Error p) (ErrorIndex p)
     (NonRepeaters p) (MaxRepetitions p) (Variables p).
Definition setCommunity (c : string) (p : SnmpPacket) :=
  mk (Version p) c (RequestType p) (Error p) (ErrorIndex p)
     (NonRepeaters p) (MaxRepetitions p) (Variables p).
Definition setRequestType (t : MessageType) (p : SnmpPacket) :=
  mk (Version p) (Community p) t (Error p) (ErrorIndex p)
     (NonRepeaters p) (MaxRepetitions p) (Variables p).
Definition setError (e : Z) (p : SnmpPacket) :=
  mk (Version p) (Community p) (RequestType p) e (ErrorIndex p)
     (NonRepeaters p) (MaxRepetitions p) (Variables p).
Definition setErrorIndex (e : Z) (p : SnmpPacket) :=
  mk (Version p) (Community p) (RequestType p) (Error p) e
     (NonRepeaters p) (MaxRepetitions p) (Variables p).
Definition setNonRepeaters (n : Z) (p : SnmpPacket) :=
  mk (Version p) (Community p) (RequestType p) (Error p) (ErrorIndex p)
     n (MaxRepetitions p) (Variables p).
Definition setMaxRepetitions (n : Z) (p : SnmpPacket) :=
  mk (Version p) (Community p) (RequestType p) (Error p) (ErrorIndex p)
     (NonRepeaters p) n (Variables p).
Definition setVariables (vs : list SnmpPDU) (p : SnmpPacket) :=
  mk (Version p) (Community p) (RequestType p) (Error p) (ErrorIndex p)
     (NonRepeaters p) (MaxRepetitions p) vs.
End Packet.
Abbreviation SnmpPacket := Packet.SnmpPacket.

(** [v.Value == "endOfMib"]: an interface value equals a string
    constant when its dynamic type is string and the strings agree. *)
Definition is_endOfMib (v : SnmpPDU) : bool :=
  match Value v with
  | VStr s => String.eqb s "endOfMib"
  | _ => false
  end.

(** ** Outcomes and the world *)

(** What running a Go function body can lead to: it returns, it
    panics with a value (rendered as text), or the model's fuel runs
    out before the loop or recursion has finished. *)
Inductive outcome (A : Type) : Type :=
| Ret (a : A)
| Panic (msg : string)
| OutOfFuel.
Arguments Panic {A} msg.
Arguments OutOfFuel {A}.

(** The codec is an external collaborator: [packet.marshal()] and
    [Unmarshal(bytes)] are declared outside src/ and taken as
    parameters.  Either may return an error or panic. *)
Class Codec : Type := {
  marshal : SnmpPacket -> outcome (bytes * option error);
  Unmarshal : bytes -> outcome (option SnmpPacket * option error)
}.

(** The methods of [net.Conn] that the source calls, acting on the
    state of the network behind the connection. *)
Record NetConn (NetState : Type) : Type := mkNetConn {
  SetDeadline : Z -> NetState -> option error * NetState;
  Write : bytes -> NetState -> (Z * option error) * NetState;
  Read : nat -> NetState -> (bytes * option error) * NetState
}.

(** Events on a result channel.  A value sent through
    [chan *SnmpPDU] is recorded as the binding the pointer refers to
    at the time of the send.  The consumer is taken to be always ready
    to receive, so a send on an open channel never blocks. *)
Inductive ChanEvent : Type :=
| Send (v : SnmpPDU)
| Close.

Definition is_Close (e : ChanEvent) : bool :=
  match e with Close => true | Send _ => false end.

Definition closed (tr : list ChanEvent) : bool := existsb is_Close tr.

Record World (NetState : Type) : Type := mkWorld {
  net : NetState;
  clock : Z;
  (* ghost: every packet handed to sendPacket, oldest first *)
  dispatched : list SnmpPacket;
  (* ghost: every buffer passed to conn.Write, oldest first *)
  written : list bytes;
  (* the trace of each allocated channel *)
  chans : nat -> list ChanEvent
}.

(** [Conn] of the source; the logger is left out (logging is outside
    the modelled core), [conn] may be the nil interface. *)
Record Conn (NetState : Type) : Type := mkConn {
  Target : string;
  Community : string;
  Version : SnmpVersion;
  Timeout : Z;
  conn : option (NetConn NetState)
}.

Section Monad.
Context {NetState : Type}.

Definition M (A : Type) : Type :=
  World NetState -> outcome A * World NetState.

Definition ret {A} (a : A) : M A := fun w => (Ret a, w).

Definition bind {A B} (m : M A) (f : A -> M B) : M B :=
  fun w =>
    match m w with
    | (Ret a, w') => f a w'
    | (Panic e, w') => (Panic e, w')
    | (OutOfFuel, w') => (OutOfFuel, w')
    end.

Definition panic {A} (msg : string) : M A := fun w => (Panic msg, w).

Definition out_of_fuel {A} : M A := fun w => (OutOfFuel, w).

(** A pure call into the codec. *)
Definition call {A} (o : outcome A) : M A := fun w => (o, w).

(** A method call on the connection. *)
Definition on_net {A} (f : NetState -> A * NetState) : M A :=
  fun w =>
    let '(a, n) := f (net w) in
    (Ret a, mkWorld n (clock w) (dispatched w) (written w) (chans w)).

Definition time_Now : M Z := fun w => (Ret (clock w), w).

Definition log_dispatched (p : SnmpPacket) : M unit :=
  fun w => (Ret tt, mkWorld (net w) (clock w) (dispatched w ++ [p])
                            (written w) (chans w)).

Definition log_written (b : bytes) : M unit :=
  fun w => (Ret tt, mkWorld (net w) (clock w) (dispatched w)
                            (written w ++ [b]) (chans w)).

Definition set_chan (c : nat) (tr : list ChanEvent) (w : World NetState) :=
  mkWorld (net w) (clock w) (dispatched w) (written w)
          (fun k => if Nat.eqb k c then tr else chans w k).

(** [c <- v]: a send on a closed channel panics. *)
Definition chan_send (c : nat) (v : SnmpPDU) : M unit :=
  fun w =>
    if closed (chans w c) then (Panic "send on closed channel", w)
    else (Ret tt, set_chan c (chans w c ++ [Send v]) w).

(** [close(c)]: closing a closed channel panics. *)
Definition chan_close (c : nat) : M unit :=
  fun w =>
    if closed (chans w c) then (Panic "close of closed channel", w)
    else (Ret tt, set_chan c (chans w c ++ [Close]) w).
End Monad.

Notation "x <- m ;; k" := (bind m (fun x => k))
  (at level 61, m at next level, right associativity).
Notation "m ;;; k" := (bind m (fun _ => k))
  (at level 61, right associativity).

(** ** Request dispatch *)

(** [s[i] = a] on a slice: an index out of range is a run-time panic
    (here: [None]). *)
Fixpoint slice_set {A} (l : list A) (i : nat) (a : A) : option (list A) :=
  match l, i with
  | [], _ => None
  | _ :: t, O => Some (a :: t)
  | h :: t, S j =>
      match slice_set t j a with
      | Some t' => Some (h :: t')
      | None => None
      end
  end.

(** [for i, oid := range oids { vars[i] = SnmpPDU{Name: oid, Type: Null} }],
    entered at index [i]. *)
Fixpoint fill_Variables (i : nat) (oids : list string) (vars : list SnmpPDU)
  : outcome (list SnmpPDU) :=
  match oids with
  | [] => Ret vars
  | oid :: rest =>
      match slice_set vars i (mkPDU oid Null VNil) with
      | Some vars' => fill_Variables (S i) rest vars'
      | None => Panic "index out of range"
      end
  end.

Section Dispatch.
Context {NetState : Type} {codec : Codec}.

(** Dereferencing a pointer or calling a method on an interface value:
    nil panics. *)
Definition deref {A} (p : option A) : M (NetState := NetState) A :=
  match p with
  | Some a => ret a
  | None => panic "invalid memory address or nil pointer dereference"
  end.

(** [sendPacket]: one deadline, one marshal, one write, one read of at
    most 8192 bytes, one unmarshal, and the check that the response
    carries a variable. *)
Definition sendPacket (x : Conn NetState) (packet : SnmpPacket)
  : M (option SnmpPacket * option error) :=
  log_dispatched packet ;;;
  deadline <- time_Now ;;
  c <- deref (conn x) ;;
  _ <- on_net (SetDeadline c (deadline + Timeout x)) ;;
  m <- call (marshal packet) ;;
  match snd m with
  | Some err => ret (None, Some err)
  | None =>
      log_written (fst m) ;;;
      wr <- on_net (Write c (fst m)) ;;
      match snd wr with
      | Some err =>
          ret (None, Some ("Error writing to socket: " ++ err ++ nl)%string)
      | None =>
          rd <- on_net (Read c (Z.to_nat 8192)) ;;
          match snd rd with
          | Some err =>
              ret (None, Some ("Error reading from UDP: " ++ err ++ nl)%string)
          | None =>
              u <- call (Unmarshal (firstn (Z.to_nat 8192) (fst rd))) ;;
              match snd u with
              | Some err =>
                  ret (None, Some ("Unable to decode packet: " ++ err ++ nl)%string)
              | None =>
                  pdu <- deref (fst u) ;;
                  if Z.of_nat (List.length (Packet.Variables pdu)) <? 1
                  then ret (None, Some "No responses received.")
                  else ret (Some pdu, None)
              end
          end
      end
  end.

(** The frame of the four single-shot operations:

      var err error
      defer func() { if e := recover(); e != nil { err = fmt.Errorf("%v", e) } }()
      ... return x.sendPacket(packet)

    The results of these functions are unnamed, and [err] is a local
    variable.  When the body returns, its values are the results and
    [err] is still nil.  When the body panics, the deferred closure
    recovers, stores the error in the local [err], and the function
    returns the zero values of its results.  The second component is
    the final content of the local [err]. *)
Definition recovering {A} (zero : A) (body : M (NetState := NetState) A)
  : M (A * option error) :=
  fun w =>
    match body w with
    | (Ret r, w') => (Ret (r, None), w')
    | (Panic e, w') => (Ret (zero, Some e), w')
    | (OutOfFuel, w') => (OutOfFuel, w')
    end.

(** The packet that [GetNext] builds. *)
Definition GetNext_packet (x : Conn NetState) (oid : string) : SnmpPacket :=
  let packet := Packet.new in
  let packet := Packet.setCommunity (Community x) packet in
  let packet := Packet.setError 0 packet in
  let packet := Packet.setErrorIndex 0 packet in
  let packet := Packet.setRequestType GetNextRequest packet in
  let packet := Packet.setVersion 1 packet in
  Packet.setVariables [mkPDU oid Null VNil] packet.

Definition GetNext (x : Conn NetState) (oid : string)
  : M (option SnmpPacket * option error) :=
  r <- recovering (None, None) (sendPacket x (GetNext_packet x oid)) ;;
  ret (fst r).

(** The packet that [GetBulk] builds; the indexed assignments could
    panic, were an index out of range. *)
Definition GetBulk_packet (x : Conn NetState) (nonRepeaters maxRepetitions : Z)
  (oids : list string) : outcome SnmpPacket :=
  let packet := Packet.new in
  let packet := Packet.setCommunity (Community x) packet in
  let packet := Packet.setNonRepeaters nonRepeaters packet in
  let packet := Packet.setMaxRepetitions maxRepetitions packet in
  let packet := Packet.setRequestType GetBulkRequest packet in
  let packet := Packet.setVersion 1 packet in
  match fill_Variables 0 oids (repeat zeroPDU (List.length oids)) with
  | Ret vars => Ret (Packet.setVariables vars packet)
  | Panic e => Panic e
  | OutOfFuel => OutOfFuel
  end.

Definition GetBulk (x : Conn NetState) (nonRepeaters maxRepetitions : Z)
  (oids : list string) : M (option SnmpPacket * option error) :=
  r <- recovering (None, None)
         (packet <- call (GetBulk_packet x nonRepeaters maxRepetitions oids) ;;
          sendPacket x packet) ;;
  ret (fst r).

(** The packet that [Get] builds. *)
Definition Get_packet (x : Conn NetState) (oid : string) : SnmpPacket :=
  let packet := Packet.new in
  let packet := Packet.setCommunity (Community x) packet in
  let packet := Packet.setError 0 packet in
  let packet := Packet.setErrorIndex 0 packet in
  let packet := Packet.setRequestType GetRequest packet in
  let packet := Packet.setVersion 1 packet in
  Packet.setVariables [mkPDU oid Null VNil] packet.

Definition Get (x : Conn NetState) (oid : string)
  : M (option SnmpPacket * option error) :=
  r <- recovering (None, None) (sendPacket x (Get_packet x oid)) ;;
  ret (fst r).

(** The packet that [GetMulti] builds. *)
Definition GetMulti_packet (x : Conn NetState) (oids : list string)
  : outcome SnmpPacket :=
  let packet := Packet.new in
  let packet := Packet.setCommunity (Community x) packet in
  let packet := Packet.setError 0 packet in
  let packet := Packet.setErrorIndex 0 packet in
  let packet := Packet.setRequestType GetRequest packet in
  let packet := Packet.setVersion 1 packet in
  match fill_Variables 0 oids (repeat zeroPDU (List.length oids)) with
  | Ret vars => Ret (Packet.setVariables vars packet)
  | Panic e => Panic e
  | OutOfFuel => OutOfFuel
  end.

Definition GetMulti (x : Conn NetState) (oids : list string)
  : M (option SnmpPacket * option error) :=
  r <- recovering (None, None)
         (packet <- call (GetMulti_packet x oids) ;; sendPacket x packet) ;;
  ret (fst r).

(** ** Sequential walk *)

(** The [for] loop of [Walk].  [requestOid] is the root, [oid] the
    cursor.  Inside the loop [err] shadows the named result, so a
    [break] followed by the bare [return] yields [(results, nil)]. *)
Fixpoint Walk_loop (fuel : nat) (x : Conn NetState) (requestOid oid : string)
  (results : list SnmpPDU) : M (list SnmpPDU * option error) :=
  match fuel with
  | O => out_of_fuel
  | S fuel' =>
      r <- GetNext x oid ;;
      match snd r with
      | Some err => ret (results, Some err)
      | None =>
          match fst r with
          | Some res =>
              match Packet.Variables res with
              | v0 :: _ =>
                  if strings_Index (Name v0) requestOid >? -1
                  then Walk_loop fuel' x requestOid (Name v0) (results ++ [v0])
                  else ret (results, None)
              | [] => ret (results, None)
              end
          | None => ret (results, None)
          end
      end
  end.

Definition Walk (fuel : nat) (x : Conn NetState) (oid : string)
  : M (list SnmpPDU * option error) :=
  if String.eqb oid "" then ret ([], Some ("No OID given" ++ nl)%string)
  else Walk_loop fuel x oid oid [].

(** The [for] loop of [StreamWalk] together with the statements that
    follow it: every [break] reaches [close(c); return nil]. *)
Fixpoint StreamWalk_loop (fuel : nat) (x : Conn NetState)
  (requestOid oid : string) (c : nat) : M (option error) :=
  match fuel with
  | O => out_of_fuel
  | S fuel' =>
      r <- GetNext x oid ;;
      match snd r with
      | Some err => chan_close c ;;; ret (Some err)
      | None =>
          match fst r with
          | Some res =>
              match Packet.Variables res with
              | v0 :: _ =>
                  if strings_Index (Name v0) requestOid >? -1
                  then chan_send c v0 ;;;
                       StreamWalk_loop fuel' x requestOid (Name v0) c
                  else chan_close c ;;; ret None
              | [] => chan_close c ;;; ret None
              end
          | None => chan_close c ;;; ret None
          end
      end
  end.

Definition StreamWalk (fuel : nat) (x : Conn NetState) (oid : string) (c : nat)
  : M (option error) :=
  if String.eqb oid "" then chan_close c ;;; ret (Some ("No OID given" ++ nl)%string)
  else StreamWalk_loop fuel x oid oid c.

(** ** Bulk walk *)

(** [for i, v := range response.Variables { ... }] of [_bulkWalk],
    entered at index [i] with [vs] still to visit; [len] is
    [len(response.Variables)], [rec] the recursive call
    [x._bulkWalk(maxRepetitions, _, rootOID)].  The result is what the
    function returns: the named results [(results, err)]. *)
Fixpoint bulk_range (rec : string -> M (list SnmpPDU * option error))
  (rootOID : string) (len : nat) (i : nat) (vs : list SnmpPDU)
  (results : list SnmpPDU) : M (NetState := NetState) (list SnmpPDU * option error) :=
  match vs with
  | [] => ret (results, None)
  | v :: rest =>
      if is_endOfMib v then ret (results, None)
      else if strings_HasPrefix (Name v) rootOID then
        let results := results ++ [v] in
        if Z.of_nat i =? Z.of_nat len - 1 then
          sub <- rec (Name v) ;;
          match snd sub with
          | Some err => ret (results, Some err)
          | None => bulk_range rec rootOID len (S i) rest (results ++ fst sub)
          end
        else bulk_range rec rootOID len (S i) rest results
      else bulk_range rec rootOID len (S i) rest results
  end.

Fixpoint _bulkWalk (fuel : nat) (x : Conn NetState) (maxRepetitions : Z)
  (searchingOID rootOID : string) : M (list SnmpPDU * option error) :=
  match fuel with
  | O => out_of_fuel
  | S fuel' =>
      r <- GetBulk x 0 maxRepetitions [searchingOID] ;;
      match snd r with
      | Some err => ret ([], Some err)
      | None =>
          response <- deref (fst r) ;;
          bulk_range (fun s => _bulkWalk fuel' x maxRepetitions s rootOID)
                     rootOID (List.length (Packet.Variables response)) 0
                     (Packet.Variables response) []
      end
  end.

Definition BulkWalk (fuel : nat) (x : Conn NetState) (maxRepetitions : Z)
  (oid : string) : M (list SnmpPDU * option error) :=
  if String.eqb oid "" then ret ([], Some ("No OID given" ++ nl)%string)
  else _bulkWalk fuel x maxRepetitions oid oid.

(** [for _, subResult := range subResults { resultChan <- &subResult }]. *)
Fixpoint send_all (c : nat) (vs : list SnmpPDU) : M (NetState := NetState) unit :=
  match vs with
  | [] => ret tt
  | v :: rest => chan_send c v ;;; send_all c rest
  end.

(** The [range] loop of [StreamBulkWalk] with the statements that
    follow it ([close(resultChan); return nil]). *)
Fixpoint stream_range (rec : string -> M (list SnmpPDU * option error))
  (rootOID : string) (c : nat) (len : nat) (i : nat) (vs : list SnmpPDU)
  : M (NetState := NetState) (option error) :=
  match vs with
  | [] => chan_close c ;;; ret None
  | v :: rest =>
      if is_endOfMib v then chan_close c ;;; ret None
      else if strings_HasPrefix (Name v) rootOID then
        chan_send c v ;;;
        if Z.of_nat i =? Z.of_nat len - 1 then
          sub <- rec (Name v) ;;
          match snd sub with
          | Some err => chan_close c ;;; ret (Some err)
          | None =>
              send_all c (fst sub) ;;;
              stream_range rec rootOID c len (S i) rest
          end
        else stream_range rec rootOID c len (S i) rest
      else stream_range rec rootOID c len (S i) rest
  end.

Definition StreamBulkWalk (fuel : nat) (x : Conn NetState) (maxRepetitions : Z)
  (oid : string) (resultChan : nat) : M (option error) :=
  let rootOID := oid in
  r <- GetBulk x 0 maxRepetitions [oid] ;;
  match snd r with
  | Some err => chan_close resultChan ;;; ret (Some err)
  | None =>
      response <- deref (fst r) ;;
      stream_range (fun s => _bulkWalk fuel x maxRepetitions s rootOID)
                   rootOID resultChan (List.length (Packet.Variables response)) 0
                   (Packet.Variables response)
  end.

End Dispatch.

(** ** Session set-up and diagnostics *)

(** Go's [int64] arithmetic: the exact result wrapped to 64 bits, two's
    complement. *)
Definition wrap64 (z : Z) : Z := (z + 2 ^ 63) mod 2 ^ 64 - 2 ^ 63.

(** [time.Second], in nanoseconds. *)
Definition time_Second : Z := 1000000000.

(** [time.Duration(n) * time.Second]. *)
Definition Duration_seconds (n : Z) : Z := wrap64 (n * time_Second).

(** [strings.Contains s substr]. *)
Definition strings_Contains (s substr : string) : bool :=
  strings_Index s substr >=? 0.

(** [fmt.Sprintf("%d", n)]. *)
Definition Sprintf_d (n : Z) : string := NilZero.string_of_int (Z.to_int n).

(** The initial value of the package variable [DefaultPort]. *)
Definition DefaultPort : Z := 161.

Section Session.
Context {NetState : Type} {codec : Codec}.

(** [SetTimeout]: the receiver is updated in place; the model returns
    the updated session. *)
Definition SetTimeout (x : Conn NetState) (seconds : Z) : Conn NetState :=
  let seconds := if seconds <=? 0 then 5 else seconds in
  mkConn (Target x) (Community x) (Version x) (Duration_seconds seconds)
         (conn x).

(** [Connect].  [dial network address timeout] stands for
    [net.DialTimeout] and [port] for the current value of the package
    variable [DefaultPort]; the logger handed to the session is left
    out, as in [Conn]. *)
Definition Connect
  (dial : string -> string -> Z -> option (NetConn NetState) * option error)
  (port : Z) (target community : string) (version : SnmpVersion) (timeout : Z)
  : option (Conn NetState) * option error :=
  let target :=
    if negb (strings_Contains target ":")
    then (target ++ ":" ++ Sprintf_d port)%string
    else target in
  let dialled := dial "udp" target (Duration_seconds timeout) in
  match snd dialled with
  | Some err =>
      (None,
       Some ("Error establishing connection to host: " ++ err ++ nl)%string)
  | None =>
      (Some (mkConn target community version (Duration_seconds timeout)
                    (fst dialled)),
       None)
  end.


End Session.

(** ** A simulated agent

    A mock codec and a mock UDP peer, used to run the walks on
    concrete inputs.  The peer holds a MIB as a list of bindings in
    tree order and answers one datagram per request. *)
Module Sim.

Definition byte_of_nat (n : nat) : byte :=
  match Byte.of_nat n with Some b => b | None => x00 end.

Definition encode_string (s : string) : bytes :=
  byte_of_nat (String.length s) :: list_byte_of_string s.

Definition encode_tag (t : Asn1BER) : byte :=
  match t with
  | UnknownType => x00
  | Null => x05
  | Integer => x02
  | OctetString => x04
  | ObjectIdentifier => x06
  | EndOfMibView => x82
  end.

Definition decode_tag (b : byte) : Asn1BER :=
  match b with
  | x05 => Null
  | x02 => Integer
  | x04 => OctetString
  | x06 => ObjectIdentifier
  | x82 => EndOfMibView
  | _ => UnknownType
  end.

Definition encode_value (v : value) : bytes :=
  match v with
  | VNil => [x00]
  | VStr s => x01 :: encode_string s
  | VInt z => [x02; byte_of_nat (Z.to_nat z)]
  end.

Definition encode_pdu (v : SnmpPDU) : bytes :=
  encode_string (Name v) ++ encode_tag (Type_ v) :: encode_value (Value v).

Definition encode_kind (k : MessageType) : byte :=
  match k with
  | NoRequest => x00
  | GetRequest => xa0
  | GetNextRequest => xa1
  | GetBulkRequest => xa5
  end.

Definition decode_kind (b : byte) : MessageType :=
  match b with
  | xa0 => GetRequest
  | xa1 => GetNextRequest
  | xa5 => GetBulkRequest
  | _ => NoRequest
  end.

Definition encode_packet (p : SnmpPacket) : bytes :=
  encode_kind (Packet.RequestType p)
    :: byte_of_nat (Z.to_nat (Packet.MaxRepetitions p))
    :: List.concat (map encode_pdu (Packet.Variables p)).

Definition take_string (bs : bytes) : option (string * bytes) :=
  match bs with
  | [] => None
  | n :: rest =>
      if Nat.leb (Byte.to_nat n) (List.length rest)
      then Some (string_of_list_byte (firstn (Byte.to_nat n) rest),
                 skipn (Byte.to_nat n) rest)
      else None
  end.

Definition take_value (bs : bytes) : option (value * bytes) :=
  match bs with
  | x00 :: rest => Some (VNil, rest)
  | x01 :: rest =>
      match take_string rest with
      | Some (s, rest') => Some (VStr s, rest')
      | None => None
      end
  | x02 :: b :: rest => Some (VInt (Z.of_nat (Byte.to_nat b)), rest)
  | _ => None
  end.

Definition take_pdu (bs : bytes) : option (SnmpPDU * bytes) :=
  match take_string bs with
  | Some (name, t :: rest) =>
      match take_value rest with
      | Some (v, rest') => Some (mkPDU name (decode_tag t) v, rest')
      | None => None
      end
  | _ => None
  end.

Fixpoint take_pdus (fuel : nat) (bs : bytes) : option (list SnmpPDU) :=
  match bs with
  | [] => Some []
  | _ =>
      match fuel with
      | O => None
      | S fuel' =>
          match take_pdu bs with
          | Some (v, rest) =>
              match take_pdus fuel' rest with
              | Some vs => Some (v :: vs)
              | None => None
              end
          | None => None
          end
      end
  end.

Definition decode_packet (bs : bytes) : option SnmpPacket :=
  match bs with
  | k :: m :: rest =>
      match take_pdus (List.length rest) rest with
      | Some vs =>
          Some (Packet.mk 1 "" (decode_kind k) 0 0 0
                          (Z.of_nat (Byte.to_nat m)) vs)
      | None => None
      end
  | _ => None
  end.

Definition codec : Codec := {|
  marshal := fun p => Ret (encode_packet p, None);
  Unmarshal := fun bs =>
    match decode_packet bs with
    | Some p => Ret (Some p, None)
    | None => Ret (None, Some "malformed datagram")
    end
|}.

(** The peer: its MIB and the datagram waiting to be read. *)
Record Agent : Type := mkAgent {
  mib : list SnmpPDU;
  inbox : bytes
}.

Fixpoint after_name (name : string) (l : list SnmpPDU) : option (list SnmpPDU) :=
  match l with
  | [] => None
  | v :: rest =>
      if String.eqb (Name v) name then Some rest else after_name name rest
  end.

(** The bindings that follow [name] in tree order; a name that the MIB
    does not hold is taken to sort before all of it. *)
Definition successors (l : list SnmpPDU) (name : string) : list SnmpPDU :=
  match after_name name l with
  | Some rest => rest
  | None => l
  end.

Definition answer (l : list SnmpPDU) (req : SnmpPacket) : list SnmpPDU :=
  match Packet.Variables req with
  | [] => []
  | v :: _ =>
      match Packet.RequestType req with
      | GetBulkRequest =>
          firstn (Z.to_nat (Packet.MaxRepetitions req)) (successors l (Name v))
      | _ => firstn 1 (successors l (Name v))
      end
  end.

Definition agent_conn : NetConn Agent := {|
  SetDeadline := fun _ a => (None, a);
  Write := fun bs a =>
    ((Z.of_nat (List.length bs), None),
     mkAgent (mib a)
       match decode_packet bs with
       | Some req =>
           encode_packet (Packet.setVariables (answer (mib a) req) Packet.new)
       | None => []
       end);
  Read := fun n a => ((firstn n (inbox a), None), a)
|}.

Definition session : Conn Agent :=
  mkConn "192.0.2.1:161" "public" 1 5000000000 (Some agent_conn).

(** A session whose connection is the nil interface, as the struct
    literal [Conn{Community: "public"}] gives. *)
Definition unconnected : Conn Agent := mkConn "" "public" 0 0 None.

Definition world (l : list SnmpPDU) : World Agent :=
  mkWorld (mkAgent l []) 0 [] [] (fun _ => []).

Definition leaf (name value : string) : SnmpPDU :=
  mkPDU name OctetString (VStr value).

End Sim.


(** ** Vocabulary of the statements *)

(** The bulk walk's range test: [strings.HasPrefix(v.Name, rootOID)]. *)
Definition in_range (rootOID : string) (v : SnmpPDU) : bool :=
  strings_HasPrefix (Name v) rootOID.

(** The sequential walk's test: [strings.Index(v.Name, requestOid) > -1]. *)
Definition contains_root (requestOid : string) (v : SnmpPDU) : bool :=
  strings_Index (Name v) requestOid >? -1.

Definition no_sentinel (vs : list SnmpPDU) : bool :=
  forallb (fun v => negb (is_endOfMib v)) vs.

(** The bindings of a batch that come before its first sentinel. *)
Fixpoint before_sentinel (vs : list SnmpPDU) : list SnmpPDU :=
  match vs with
  | [] => []
  | v :: rest => if is_endOfMib v then [] else v :: before_sentinel rest
  end.

Definition emitted (rootOID : string) (vs : list SnmpPDU) : list SnmpPDU :=
  filter (in_range rootOID) vs.

Fixpoint last_pdu (vs : list SnmpPDU) : option SnmpPDU :=
  match vs with
  | [] => None
  | [v] => Some v
  | _ :: rest => last_pdu rest
  end.

Definition last_in_range (rootOID : string) (vs : list SnmpPDU) : bool :=
  match last_pdu vs with
  | Some l => in_range rootOID l
  | None => false
  end.

(** A batch after which the bulk walk asks for more: no binding of it
    carries the sentinel and its last binding is in range. *)
Definition recurses (rootOID : string) (vs : list SnmpPDU) : bool :=
  no_sentinel vs && last_in_range rootOID vs.

(** The condition under which the specification says the bulk walk
    asks for more: the batch is not empty and its last binding is in
    range and is not the sentinel. *)
Definition last_governs (rootOID : string) (vs : list SnmpPDU) : bool :=
  match last_pdu vs with
  | Some l => in_range rootOID l && negb (is_endOfMib l)
  | None => false
  end.

(** The world [w] with its channels replaced by [ch]. *)
Definition with_chans {NetState} (ch : nat -> list ChanEvent)
  (w : World NetState) : World NetState :=
  mkWorld (net w) (clock w) (dispatched w) (written w) ch.

(** The query binding built for one OID: [SnmpPDU{Name: oid, Type: Null}]. *)
Definition query (oid : string) : SnmpPDU := mkPDU oid Null VNil.

(** The request that [GetBulk(0, maxRepetitions, seed)] hands to
    [sendPacket]. *)
Definition bulk_request {NetState} (x : Conn NetState) (maxRepetitions : Z)
  (seed : string) : SnmpPacket :=
  Packet.mk 1 (Community x) GetBulkRequest 0 0 0 maxRepetitions
            [mkPDU seed Null VNil].

(** What a level of the bulk walk returns once the level below has
    come back with [r]: [mine] are the in-range bindings of its own
    batch.  On an error the named result [results] still holds
    [mine] only; otherwise the results of the level below are
    appended. *)
Definition after_batch {NetState} (mine : list SnmpPDU)
  (r : outcome (list SnmpPDU * option error) * World NetState)
  : outcome (list SnmpPDU * option error) * World NetState :=
  match r with
  | (Ret (_, Some err), w') => (Ret (mine, Some err), w')
  | (Ret (sub, None), w') => (Ret (mine ++ sub, None), w')
  | (Panic msg, w') => (Panic msg, w')
  | (OutOfFuel, w') => (OutOfFuel, w')
  end.

(** The levels of the bulk walk that fetched the batches [bs] coming
    back, innermost first, once the level below them has returned [r]. *)
Definition after_batches {NetState} (root : string) (bs : list (list SnmpPDU))
  (r : outcome (list SnmpPDU * option error) * World NetState)
  : outcome (list SnmpPDU * option error) * World NetState :=
  fold_right (fun b acc => after_batch (filter (in_range root) b) acc) r bs.

(** [bulk_run x mr root s w bs s' w']: from seed [s] in world [w] the
    agent answers [length bs] successive GetBulk requests with the
    batches [bs], each free of sentinels and ending in range, so that
    the bulk walk stands at seed [s'] in world [w'], [length bs]
    levels deep. *)
Inductive bulk_run {NetState} {codec : Codec} (x : Conn NetState) (mr : Z)
  (root : string)
  : string -> World NetState -> list (list SnmpPDU) -> string ->
    World NetState -> Prop :=
| run_here : forall s w, bulk_run x mr root s w [] s w
| run_batch : forall s w p w1 l bs s' w',
    GetBulk x 0 mr [s] w = (Ret (Some p, None), w1) ->
    no_sentinel (Packet.Variables p) = true ->
    last_pdu (Packet.Variables p) = Some l ->
    in_range root l = true ->
    bulk_run x mr root (Name l) w1 bs s' w' ->
    bulk_run x mr root s w (Packet.Variables p :: bs) s' w'.

(** ** Properties *)

Section Properties.
Context {NetState : Type} {codec : Codec}.
Implicit Types (x : Conn NetState) (w : World NetState).

(** *** Strings *)

Lemma prefix_index_zero (p s : string) :
  String.prefix p s = true -> String.index 0 p s = Some 0%nat.
Proof.
  destruct s as [|a s]; simpl.
  - destruct p; [reflexivity | discriminate].
  - intros ->. reflexivity.
Qed.

Lemma in_range_contains_root (root : string) (v : SnmpPDU) :
  in_range root v = true -> contains_root root v = true.
Proof.
  unfold in_range, contains_root, strings_HasPrefix, strings_Index.
  intros H. rewrite (prefix_index_zero _ _ H). reflexivity.
Qed.

(** *** The dispatch boundary *)

(** A computation is quiet when it neither dispatches a request nor
    touches a channel. *)
Definition quiet {A} (m : M (NetState := NetState) A) : Prop :=
  forall w o w', m w = (o, w') ->
    dispatched w' = dispatched w /\ chans w' = chans w.

Lemma quiet_ret {A} (a : A) : quiet (ret a).
Proof. intros w o w' H. inversion H. auto. Qed.

Lemma quiet_panic {A} (msg : string) : quiet (panic (A := A) msg).
Proof. intros w o w' H. inversion H. auto. Qed.

Lemma quiet_call {A} (c : outcome A) : quiet (call c).
Proof. intros w o w' H. inversion H. auto. Qed.

Lemma quiet_time_Now : quiet time_Now.
Proof. intros w o w' H. inversion H. auto. Qed.

Lemma quiet_deref {A} (p : option A) : quiet (deref p).
Proof. destruct p; [apply quiet_ret | apply quiet_panic]. Qed.

Lemma quiet_on_net {A} (f : NetState -> A * NetState) : quiet (on_net f).
Proof.
  intros w o w' H. unfold on_net in H.
  destruct (f (net w)). inversion H. auto.
Qed.

Lemma quiet_log_written (b : bytes) : quiet (log_written b).
Proof. intros w o w' H. inversion H. auto. Qed.

Lemma quiet_bind {A B} (m : M A) (f : A -> M B) :
  quiet m -> (forall a, quiet (f a)) -> quiet (bind m f).
Proof.
  intros Hm Hf w o w' H. unfold bind in H.
  destruct (m w) as [[a|e|] w1] eqn:E.
  - destruct (Hm _ _ _ E) as [D C]. destruct (Hf a _ _ _ H) as [D' C'].
    split; congruence.
  - inversion H; subst. exact (Hm _ _ _ E).
  - inversion H; subst. exact (Hm _ _ _ E).
Qed.

Create HintDb quiet.

#[local] Hint Resolve quiet_ret quiet_panic quiet_call quiet_time_Now
  quiet_deref quiet_on_net quiet_log_written : quiet.

Ltac quiet_steps :=
  repeat first
    [ apply quiet_bind; [ solve [auto with quiet] | intros ? ]
    | match goal with
      | |- quiet (match ?e with _ => _ end) => destruct e
      | |- quiet (if ?e then _ else _) => destruct e
      end
    | solve [auto with quiet] ].

Lemma sendPacket_frame x p w o w' :
  sendPacket x p w = (o, w') ->
  dispatched w' = dispatched w ++ [p] /\ chans w' = chans w.
Proof.
  unfold sendPacket. intros H. unfold bind at 1, log_dispatched in H.
  cbv beta iota in H.
  match type of H with
  | ?m ?w0 = _ => assert (Q : quiet m) by quiet_steps;
                  destruct (Q _ _ _ H) as [D C]
  end.
  simpl in D, C. auto.
Qed.

(** What the deferred closure makes of the body's outcome. *)
Lemma recovering_eq {A} (zero : A) (body : M (NetState := NetState) A) w :
  recovering zero body w =
  match body w with
  | (Ret r, w') => (Ret (r, None), w')
  | (Panic e, w') => (Ret (zero, Some e), w')
  | (OutOfFuel, w') => (OutOfFuel, w')
  end.
Proof. reflexivity. Qed.

Lemma slice_set_middle {A} (pre : list A) (z a : A) (rest : list A) :
  slice_set (pre ++ z :: rest) (List.length pre) a = Some (pre ++ a :: rest).
Proof.
  induction pre as [|h pre IH]; simpl; [reflexivity|].
  rewrite IH. reflexivity.
Qed.

Lemma fill_Variables_from (oids : list string) :
  forall (pre rest : list SnmpPDU),
    List.length rest = List.length oids ->
    fill_Variables (List.length pre) oids (pre ++ rest)
    = Ret (pre ++ map query oids).
Proof.
  induction oids as [|oid oids IH]; intros pre rest Hlen.
  - destruct rest; [reflexivity | discriminate].
  - destruct rest as [|z rest]; [discriminate|].
    simpl. rewrite slice_set_middle.
    change (pre ++ mkPDU oid Null VNil :: rest)
      with (pre ++ [query oid] ++ rest).
    rewrite app_assoc.
    replace (S (List.length pre)) with (List.length (pre ++ [query oid]))
      by (rewrite length_app; simpl; lia).
    rewrite IH by (simpl in Hlen; lia).
    rewrite <- app_assoc. reflexivity.
Qed.

Lemma fill_Variables_all (oids : list string) :
  fill_Variables 0 oids (repeat zeroPDU (List.length oids))
  = Ret (map query oids).
Proof.
  apply (fill_Variables_from oids [] (repeat zeroPDU (List.length oids))).
  apply repeat_length.
Qed.

Lemma GetBulk_packet_eq x (nr mr : Z) (oids : list string) :
  GetBulk_packet x nr mr oids
  = Ret (Packet.mk 1 (Community x) GetBulkRequest 0 0 nr mr (map query oids)).
Proof.
  unfold GetBulk_packet. rewrite fill_Variables_all. reflexivity.
Qed.

Lemma GetMulti_packet_eq x (oids : list string) :
  GetMulti_packet x oids
  = Ret (Packet.mk 1 (Community x) GetRequest 0 0 0 0 (map query oids)).
Proof.
  unfold GetMulti_packet. rewrite fill_Variables_all. reflexivity.
Qed.

(** Each single-shot operation is its [sendPacket] call seen through
    the deferred closure. *)
Definition through_recover
  (r : outcome (option SnmpPacket * option error) * World NetState) :=
  match r with
  | (Ret a, w') => (Ret a, w')
  | (Panic _, w') => (Ret (None, None), w')
  | (OutOfFuel, w') => (OutOfFuel, w')
  end.

Lemma GetNext_eq x oid w :
  GetNext x oid w = through_recover (sendPacket x (GetNext_packet x oid) w).
Proof.
  unfold GetNext, bind, recovering, through_recover.
  destruct (sendPacket x (GetNext_packet x oid) w) as [[a|e|] w']; reflexivity.
Qed.

Lemma Get_eq x oid w :
  Get x oid w = through_recover (sendPacket x (Get_packet x oid) w).
Proof.
  unfold Get, bind, recovering, through_recover.
  destruct (sendPacket x (Get_packet x oid) w) as [[a|e|] w']; reflexivity.
Qed.

Lemma GetBulk_eq x nr mr oids w :
  GetBulk x nr mr oids w
  = through_recover
      (sendPacket x (Packet.mk 1 (Community x) GetBulkRequest 0 0 nr mr
                               (map query oids)) w).
Proof.
  unfold GetBulk. rewrite GetBulk_packet_eq.
  unfold bind, recovering, through_recover, call.
  destruct (sendPacket _ _ w) as [[a|e|] w']; reflexivity.
Qed.

Lemma GetMulti_eq x oids w :
  GetMulti x oids w
  = through_recover
      (sendPacket x (Packet.mk 1 (Community x) GetRequest 0 0 0 0
                               (map query oids)) w).
Proof.
  unfold GetMulti. rewrite GetMulti_packet_eq.
  unfold bind, recovering, through_recover, call.
  destruct (sendPacket _ _ w) as [[a|e|] w']; reflexivity.
Qed.

Lemma through_recover_frame x p w o w' :
  through_recover (sendPacket x p w) = (o, w') ->
  dispatched w' = dispatched w ++ [p] /\ chans w' = chans w.
Proof.
  destruct (sendPacket x p w) as [[a|e|] w1] eqn:E; simpl;
    intros H; inversion H; subst; exact (sendPacket_frame _ _ _ E).
Qed.

Lemma GetNext_frame x oid w o w' :
  GetNext x oid w = (o, w') ->
  dispatched w' = dispatched w ++ [GetNext_packet x oid]
  /\ chans w' = chans w.
Proof. rewrite GetNext_eq. apply through_recover_frame. Qed.

Lemma GetBulk_frame x mr s w o w' :
  GetBulk x 0 mr [s] w = (o, w') ->
  dispatched w' = dispatched w ++ [bulk_request x mr s]
  /\ chans w' = chans w.
Proof. rewrite GetBulk_eq. apply through_recover_frame. Qed.

(** C9.  Every request builder hands to [sendPacket] a packet that
    holds one Null-typed binding with unset value per input OID, in
    input order, the operation kind of the call ([GetMulti] is a Get
    over several OIDs), the community of the session, and the version
    field 1 whatever the session's [Version] is. *)
Theorem request_builders_packets x (oid : string) (oids : list string)
  (nonRepeaters maxRepetitions : Z) w :
  let get := Packet.mk 1 (Community x) GetRequest 0 0 0 0 [query oid] in
  let next := Packet.mk 1 (Community x) GetNextRequest 0 0 0 0 [query oid] in
  let bulk := Packet.mk 1 (Community x) GetBulkRequest 0 0
                nonRepeaters maxRepetitions (map query oids) in
  let multi := Packet.mk 1 (Community x) GetRequest 0 0 0 0 (map query oids) in
  (Get_packet x oid = get
   /\ GetNext_packet x oid = next
   /\ GetBulk_packet x nonRepeaters maxRepetitions oids = Ret bulk
   /\ GetMulti_packet x oids = Ret multi)
  /\ (dispatched (snd (Get x oid w)) = dispatched w ++ [get]
      /\ dispatched (snd (GetNext x oid w)) = dispatched w ++ [next]
      /\ dispatched (snd (GetBulk x nonRepeaters maxRepetitions oids w))
         = dispatched w ++ [bulk]
      /\ dispatched (snd (GetMulti x oids w)) = dispatched w ++ [multi])
  /\ (forall v, In v (Packet.Variables bulk) ->
                Type_ v = Null /\ Value v = VNil)
  /\ map Name (Packet.Variables bulk) = oids.
Proof.
  cbv zeta. repeat split.
  - apply GetBulk_packet_eq.
  - apply GetMulti_packet_eq.
  - rewrite Get_eq.
    destruct (through_recover _) as [o w'] eqn:E.
    apply through_recover_frame in E. apply E.
  - rewrite GetNext_eq.
    destruct (through_recover _) as [o w'] eqn:E.
    apply through_recover_frame in E. apply E.
  - rewrite GetBulk_eq.
    destruct (through_recover _) as [o w'] eqn:E.
    apply through_recover_frame in E. apply E.
  - rewrite GetMulti_eq.
    destruct (through_recover _) as [o w'] eqn:E.
    apply through_recover_frame in E. apply E.
  - simpl in H. apply in_map_iff in H. destruct H as [o [<- _]]. reflexivity.
  - simpl in H. apply in_map_iff in H. destruct H as [o [<- _]]. reflexivity.
  - simpl. rewrite map_map. simpl. apply map_id.
Qed.

(** *** One batch of the bulk walk *)

Lemma last_pdu_cons (v r : SnmpPDU) (rest : list SnmpPDU) :
  last_pdu (v :: r :: rest) = last_pdu (r :: rest).
Proof. reflexivity. Qed.

Lemma recurses_cons (root : string) (v r : SnmpPDU) (rest : list SnmpPDU) :
  recurses root (v :: r :: rest)
  = negb (is_endOfMib v) && recurses root (r :: rest).
Proof.
  unfold recurses, last_in_range. rewrite last_pdu_cons.
  change (no_sentinel (v :: r :: rest))
    with (negb (is_endOfMib v) && no_sentinel (r :: rest)).
  destruct (negb (is_endOfMib v)); reflexivity.
Qed.

Lemma index_is_last (i len : nat) (v : SnmpPDU) (rest : list SnmpPDU) :
  (i + List.length (v :: rest) = len)%nat ->
  (Z.of_nat i =? Z.of_nat len - 1)
  = match rest with [] => true | _ :: _ => false end.
Proof.
  intros H. simpl in H. destruct rest; simpl in H.
  - apply Z.eqb_eq. lia.
  - apply Z.eqb_neq. lia.
Qed.

Lemma before_sentinel_clean (vs : list SnmpPDU) :
  no_sentinel vs = true -> before_sentinel vs = vs.
Proof.
  induction vs as [|v vs IH]; simpl; [reflexivity|].
  intros H. apply andb_prop in H. destruct H as [Hv Hvs].
  destruct (is_endOfMib v); [discriminate|]. rewrite IH; auto.
Qed.

Lemma before_sentinel_split (pre post : list SnmpPDU) (v : SnmpPDU) :
  no_sentinel pre = true -> is_endOfMib v = true ->
  before_sentinel (pre ++ v :: post) = pre.
Proof.
  induction pre as [|a pre IH]; simpl; intros Hp Hv.
  - rewrite Hv. reflexivity.
  - apply andb_prop in Hp. destruct Hp as [Ha Hp].
    destruct (is_endOfMib a); [discriminate|]. rewrite IH; auto.
Qed.

Lemma recurses_split (root : string) (pre post : list SnmpPDU) (v : SnmpPDU) :
  is_endOfMib v = true -> recurses root (pre ++ v :: post) = false.
Proof.
  intros Hv. unfold recurses.
  replace (no_sentinel (pre ++ v :: post)) with false; [reflexivity|].
  unfold no_sentinel. rewrite forallb_app. simpl. rewrite Hv. simpl.
  rewrite andb_false_r. reflexivity.
Qed.

Section Batch.
Variable rec : string -> M (NetState := NetState) (list SnmpPDU * option error).
Variable root : string.
Variable len : nat.

Lemma bulk_range_stop (vs : list SnmpPDU) :
  forall (i : nat) (results : list SnmpPDU) w,
    (i + List.length vs = len)%nat ->
    recurses root vs = false ->
    bulk_range rec root len i vs results w
    = (Ret (results ++ emitted root (before_sentinel vs), None), w).
Proof.
  induction vs as [|v rest IH]; intros i results w Hlen Hrec.
  - simpl. rewrite app_nil_r. reflexivity.
  - cbn [bulk_range before_sentinel].
    destruct (is_endOfMib v) eqn:Hs.
    + simpl. rewrite app_nil_r. reflexivity.
    + rewrite (@index_is_last _ _ _ _ Hlen).
      fold (in_range root v). unfold emitted. cbn [filter]. fold (emitted root).
      destruct rest as [|r rest].
      * unfold recurses, last_in_range in Hrec. simpl in Hrec.
        rewrite Hs in Hrec. simpl in Hrec. rewrite Hrec.
        simpl. rewrite app_nil_r. reflexivity.
      * rewrite recurses_cons, Hs in Hrec. simpl in Hrec.
        assert (Hlen' : (S i + List.length (r :: rest) = len)%nat)
          by (simpl in *; lia).
        destruct (in_range root v).
        -- rewrite (IH _ _ _ Hlen' Hrec). rewrite <- app_assoc. reflexivity.
        -- rewrite (IH _ _ _ Hlen' Hrec). reflexivity.
Qed.

Lemma bulk_range_recurse (vs : list SnmpPDU) :
  forall (i : nat) (results : list SnmpPDU) w,
    (i + List.length vs = len)%nat ->
    recurses root vs = true ->
    exists l, last_pdu vs = Some l /\ in_range root l = true /\
      bulk_range rec root len i vs results w
      = after_batch (results ++ emitted root vs) (rec (Name l) w).
Proof.
  induction vs as [|v rest IH]; intros i results w Hlen Hrec.
  - discriminate.
  - cbn [bulk_range].
    destruct rest as [|r rest].
    + unfold recurses, last_in_range in Hrec. simpl in Hrec.
      apply andb_prop in Hrec. destruct Hrec as [Hs Hin].
      rewrite andb_true_r in Hs. apply negb_true_iff in Hs.
      exists v. split; [reflexivity|]. split; [exact Hin|].
      rewrite Hs. rewrite (@index_is_last _ _ _ _ Hlen).
      fold (in_range root v). unfold emitted. cbn [filter]. rewrite Hin.
      unfold bind, after_batch.
      destruct (rec (Name v) w) as [[[sub [e|]]|m|] w']; reflexivity.
    + rewrite recurses_cons in Hrec. apply andb_prop in Hrec.
      destruct Hrec as [Hs Hrec]. apply negb_true_iff in Hs.
      assert (Hlen' : (S i + List.length (r :: rest) = len)%nat)
        by (simpl in *; lia).
      rewrite Hs. rewrite (@index_is_last _ _ _ _ Hlen).
      fold (in_range root v). unfold emitted. cbn [filter]. fold (emitted root).
      destruct (in_range root v).
      * destruct (IH (S i) (results ++ [v]) w Hlen' Hrec) as [l [Hl [Hin E]]].
        exists l. split; [exact Hl|]. split; [exact Hin|].
        rewrite E. rewrite <- app_assoc. reflexivity.
      * destruct (IH (S i) results w Hlen' Hrec) as [l [Hl [Hin E]]].
        exists l. split; [exact Hl|]. split; [exact Hin|]. exact E.
Qed.

End Batch.

Lemma bulkWalk_unfold (f : nat) x (mr : Z) (s root : string) w :
  _bulkWalk (S f) x mr s root w
  = match GetBulk x 0 mr [s] w with
    | (Ret (_, Some err), w1) => (Ret ([], Some err), w1)
    | (Ret (Some p, None), w1) =>
        bulk_range (fun s' => _bulkWalk f x mr s' root) root
                   (List.length (Packet.Variables p)) 0
                   (Packet.Variables p) [] w1
    | (Ret (None, None), w1) =>
        (Panic "invalid memory address or nil pointer dereference", w1)
    | (Panic msg, w1) => (Panic msg, w1)
    | (OutOfFuel, w1) => (OutOfFuel, w1)
    end.
Proof.
  cbn [_bulkWalk]. unfold bind.
  destruct (GetBulk x 0 mr [s] w) as [[[[p|] [e|]]|m|] w1]; reflexivity.
Qed.

Lemma bulkWalk_batch_stop (f : nat) x (mr : Z) (s root : string) w p w1 :
  GetBulk x 0 mr [s] w = (Ret (Some p, None), w1) ->
  recurses root (Packet.Variables p) = false ->
  _bulkWalk (S f) x mr s root w
  = (Ret (emitted root (before_sentinel (Packet.Variables p)), None), w1).
Proof.
  intros HG Hrec. rewrite bulkWalk_unfold, HG.
  rewrite (@bulk_range_stop _ root (List.length (Packet.Variables p)));
    auto.
Qed.

Lemma bulkWalk_batch_recurse (f : nat) x (mr : Z) (s root : string) w p w1 :
  GetBulk x 0 mr [s] w = (Ret (Some p, None), w1) ->
  recurses root (Packet.Variables p) = true ->
  exists l, last_pdu (Packet.Variables p) = Some l /\
    in_range root l = true /\
    _bulkWalk (S f) x mr s root w
    = after_batch (emitted root (Packet.Variables p))
                  (_bulkWalk f x mr (Name l) root w1).
Proof.
  intros HG Hrec. rewrite bulkWalk_unfold, HG.
  destruct (@bulk_range_recurse (fun s' => _bulkWalk f x mr s' root) root
              (List.length (Packet.Variables p)) (Packet.Variables p)
              0%nat [] w1 eq_refl Hrec) as [l [Hl [Hin E]]].
  exists l. split; [exact Hl|]. split; [exact Hin|]. exact E.
Qed.

(** *** What a walk leaves in the world *)

(** A computation only adds to the log of dispatched requests and
    leaves the channels alone. *)
Definition grows {A} (m : M (NetState := NetState) A) : Prop :=
  forall w o w', m w = (o, w') ->
    (exists more, dispatched w' = dispatched w ++ more)
    /\ chans w' = chans w.

Lemma quiet_grows {A} (m : M A) : quiet m -> grows m.
Proof.
  intros Q w o w' H. destruct (Q _ _ _ H) as [D C].
  split; [exists []; rewrite app_nil_r; exact D | exact C].
Qed.

Lemma grows_ret {A} (a : A) : grows (ret a).
Proof. apply quiet_grows, quiet_ret. Qed.

Lemma grows_out_of_fuel {A} : grows (out_of_fuel (A := A)).
Proof.
  intros w o w' H. inversion H; subst.
  split; [exists []; rewrite app_nil_r|]; reflexivity.
Qed.

Lemma grows_bind {A B} (m : M A) (f : A -> M B) :
  grows m -> (forall a, grows (f a)) -> grows (bind m f).
Proof.
  intros Hm Hf w o w' H. unfold bind in H.
  destruct (m w) as [[a|e|] w1] eqn:E.
  - destruct (Hm _ _ _ E) as [[l1 D] C].
    destruct (Hf a _ _ _ H) as [[l2 D'] C'].
    split; [exists (l1 ++ l2); rewrite D', D, app_assoc; reflexivity
           | congruence].
  - inversion H; subst. exact (Hm _ _ _ E).
  - inversion H; subst. exact (Hm _ _ _ E).
Qed.

Lemma grows_GetBulk x mr s : grows (GetBulk x 0 mr [s]).
Proof.
  intros w o w' H. destruct (GetBulk_frame _ _ _ _ H) as [D C].
  split; [eexists; exact D | exact C].
Qed.

Lemma grows_GetNext x oid : grows (GetNext x oid).
Proof.
  intros w o w' H. destruct (GetNext_frame _ _ _ H) as [D C].
  split; [eexists; exact D | exact C].
Qed.

Lemma grows_bulk_range rec (root : string) (len : nat) (vs : list SnmpPDU) :
  (forall s, grows (rec s)) ->
  forall i results, grows (bulk_range rec root len i vs results).
Proof.
  intros Hrec. induction vs as [|v rest IH]; intros i results.
  - apply grows_ret.
  - cbn [bulk_range].
    destruct (is_endOfMib v); [apply grows_ret|].
    destruct (strings_HasPrefix (Name v) root); [|apply IH].
    destruct (Z.of_nat i =? Z.of_nat len - 1); [|apply IH].
    apply grows_bind; [apply Hrec|].
    intros [sub [e|]]; simpl; [apply grows_ret | apply IH].
Qed.

Lemma grows_bulkWalk x (mr : Z) (root : string) (f : nat) :
  forall s, grows (_bulkWalk f x mr s root).
Proof.
  induction f as [|f IH]; intros s.
  - apply grows_out_of_fuel.
  - cbn [_bulkWalk]. apply grows_bind; [apply grows_GetBulk|].
    intros [r [e|]]; simpl; [apply grows_ret|].
    apply grows_bind; [apply quiet_grows, quiet_deref|].
    intros p. apply grows_bulk_range. exact IH.
Qed.

Lemma bulkWalk_first_request (f : nat) x (mr : Z) (s root : string) w o w' :
  _bulkWalk (S f) x mr s root w = (o, w') ->
  exists more, dispatched w' = dispatched w ++ bulk_request x mr s :: more.
Proof.
  cbn [_bulkWalk]. unfold bind at 1.
  destruct (GetBulk x 0 mr [s] w) as [[r|e|] w1] eqn:E;
    destruct (GetBulk_frame _ _ _ _ E) as [D _].
  - match goal with
    | |- ?m w1 = _ -> _ =>
        assert (G : grows m)
    end.
    { destruct r as [r [e|]]; simpl; [apply grows_ret|].
      apply grows_bind; [apply quiet_grows, quiet_deref|].
      intros p. apply grows_bulk_range. intros s'. apply grows_bulkWalk. }
    intros H. destruct (G _ _ _ H) as [[more D'] _].
    exists more. rewrite D', D, <- app_assoc. reflexivity.
  - intros H. inversion H; subst. exists []. exact D.
  - intros H. inversion H; subst. exists []. exact D.
Qed.

Lemma after_batch_world (mine : list SnmpPDU)
  (r : outcome (list SnmpPDU * option error) * World NetState) :
  snd (after_batch mine r) = snd r.
Proof. destruct r as [[[sub [e|]]|m|] w']; reflexivity. Qed.

(** C6, as the code has it.  After a batch has come back, a further
    GetBulk request is dispatched exactly when no binding of the batch
    carries the sentinel and the last binding is in range.  The seed
    of that request is the Name of the last binding, and the walk
    returns the in-range bindings of the batch followed by the results
    of the recursive call (with an error from below, the in-range
    bindings of the batch and the error).  In every other case, and so
    whenever the last binding is out of range, the walk stops with
    the in-range bindings that come before the first sentinel and no
    second request is dispatched. *)
Theorem bulk_batch_recursion (f : nat) x (mr : Z) (s root : string) w p w1 :
  GetBulk x 0 mr [s] w = (Ret (Some p, None), w1) ->
  let vs := Packet.Variables p in
  let run := _bulkWalk (S (S f)) x mr s root w in
  (recurses root vs = true <->
   exists l more, last_pdu vs = Some l
     /\ dispatched (snd run)
        = dispatched w1 ++ bulk_request x mr (Name l) :: more)
  /\ (recurses root vs = false <-> dispatched (snd run) = dispatched w1)
  /\ (recurses root vs = true ->
      exists l, last_pdu vs = Some l /\ in_range root l = true /\
        run = after_batch (emitted root vs)
                          (_bulkWalk (S f) x mr (Name l) root w1))
  /\ (recurses root vs = false ->
      run = (Ret (emitted root (before_sentinel vs), None), w1))
  /\ (last_in_range root vs = false ->
      run = (Ret (emitted root (before_sentinel vs), None), w1)).
Proof.
  intros HG vs run.
  assert (Hyes : recurses root vs = true ->
            exists l more, last_pdu vs = Some l
              /\ dispatched (snd run)
                 = dispatched w1 ++ bulk_request x mr (Name l) :: more).
  { intros Hrec.
    destruct (@bulkWalk_batch_recurse (S f) _ _ _ root _ _ _ HG Hrec)
      as [l [Hl [_ E]]].
    destruct (_bulkWalk (S f) x mr (Name l) root w1) as [o w2] eqn:E2.
    destruct (@bulkWalk_first_request _ _ _ _ _ _ _ _ E2) as [more D].
    exists l, more. split; [exact Hl|].
    unfold run. rewrite E, after_batch_world. exact D. }
  assert (Hno : recurses root vs = false ->
            run = (Ret (emitted root (before_sentinel vs), None), w1)).
  { intros Hrec. exact (@bulkWalk_batch_stop (S f) _ _ _ root _ _ _ HG Hrec). }
  repeat split.
  - exact Hyes.
  - intros [l [more [_ D]]].
    destruct (recurses root vs) eqn:Hrec; [reflexivity|].
    rewrite (Hno eq_refl) in D. simpl in D.
    apply (f_equal (@List.length _)) in D. rewrite length_app in D.
    simpl in D. lia.
  - intros Hrec. rewrite (Hno Hrec). reflexivity.
  - intros D. destruct (recurses root vs) eqn:Hrec; [|reflexivity].
    destruct (Hyes eq_refl) as [l [more [_ D']]]. rewrite D in D'.
    apply (f_equal (@List.length _)) in D'. rewrite length_app in D'.
    simpl in D'. lia.
  - intros Hrec. exact (@bulkWalk_batch_recurse (S f) _ _ _ root _ _ _ HG Hrec).
  - exact Hno.
  - intros Hlast. apply Hno. unfold recurses. fold vs. rewrite Hlast.
    apply andb_false_r.
Qed.

(** *** The bulk walk over several batches *)

Lemma after_batches_ok (root : string) (bs : list (list SnmpPDU))
  (res : list SnmpPDU) w :
  after_batches root bs (Ret (res, None), w)
  = (Ret (List.concat (map (emitted root) bs) ++ res, None), w).
Proof.
  induction bs as [|b bs IH]; [reflexivity|].
  unfold after_batches in *. cbn [fold_right map List.concat].
  rewrite IH. simpl. rewrite <- app_assoc. reflexivity.
Qed.

Lemma after_batches_err (root : string) (bs : list (list SnmpPDU))
  (res : list SnmpPDU) (e : error) w :
  after_batches root bs (Ret (res, Some e), w)
  = (Ret (match bs with [] => res | b :: _ => emitted root b end, Some e), w).
Proof.
  induction bs as [|b bs IH]; [reflexivity|].
  unfold after_batches in *. cbn [fold_right].
  rewrite IH. reflexivity.
Qed.

Lemma bulk_run_walk x (mr : Z) (root s : string) w bs s' w' :
  bulk_run x mr root s w bs s' w' ->
  forall f,
    _bulkWalk (f + List.length bs) x mr s root w
    = after_batches root bs (_bulkWalk f x mr s' root w').
Proof.
  induction 1 as [s w | s w p w1 l bs s' w' HG Hns Hl Hin Hrun IH]; intros f.
  - rewrite Nat.add_0_r. reflexivity.
  - cbn [List.length]. rewrite Nat.add_succ_r.
    assert (Hrec : recurses root (Packet.Variables p) = true).
    { unfold recurses, last_in_range. rewrite Hns, Hl. exact Hin. }
    destruct (@bulkWalk_batch_recurse (f + List.length bs) _ _ _ root _ _ _
                HG Hrec) as [l' [Hl' [_ E]]].
    rewrite Hl in Hl'. inversion Hl'; subst l'.
    rewrite E, IH. reflexivity.
Qed.

(** C5, blocking variant, at any depth.  When the batch fetched after
    the batches [bs] holds the sentinel at some position, the walk
    returns without error the in-range bindings of [bs] followed by
    the in-range bindings that precede the sentinel, and the request
    that fetched this batch is the last one dispatched. *)
Lemma bulkWalk_sentinel x (mr : Z) (root s : string) w bs s' w' p w''
  (pre post : list SnmpPDU) (v : SnmpPDU) (k : nat) :
  bulk_run x mr root s w bs s' w' ->
  GetBulk x 0 mr [s'] w' = (Ret (Some p, None), w'') ->
  Packet.Variables p = pre ++ v :: post ->
  no_sentinel pre = true ->
  is_endOfMib v = true ->
  _bulkWalk (S k + List.length bs) x mr s root w
  = (Ret (List.concat (map (emitted root) bs) ++ emitted root pre, None), w'')
  /\ dispatched w'' = dispatched w' ++ [bulk_request x mr s'].
Proof.
  intros Hrun HG Hvs Hpre Hv. split.
  - rewrite (bulk_run_walk Hrun).
    rewrite (@bulkWalk_batch_stop k _ _ _ root _ _ _ HG).
    + rewrite Hvs, before_sentinel_split by assumption.
      apply after_batches_ok.
    + rewrite Hvs. apply recurses_split. exact Hv.
  - apply (@GetBulk_frame _ _ _ _ _ _ HG).
Qed.

Lemma BulkWalk_nonempty (f : nat) x (mr : Z) (root : string) :
  root <> "" -> BulkWalk f x mr root = _bulkWalk f x mr root root.
Proof.
  intros H. unfold BulkWalk.
  destruct (String.eqb_spec root ""); [contradiction | reflexivity].
Qed.

(** C7, as the code has it.  When the request that follows the batches
    [bs] fails, the blocking bulk walk returns that error at once
    (the failed request is the last one dispatched).  With it the
    caller receives no result when the very first request failed, and
    otherwise the in-range bindings of the first batch; what the
    deeper batches had gathered is dropped. *)
Theorem BulkWalk_dispatch_error x (mr : Z) (root : string) w bs s' w'
  (o : option SnmpPacket) (e : error) w'' (k : nat) :
  root <> "" ->
  bulk_run x mr root root w bs s' w' ->
  GetBulk x 0 mr [s'] w' = (Ret (o, Some e), w'') ->
  BulkWalk (S k + List.length bs) x mr root w
  = (Ret (match bs with [] => [] | b :: _ => emitted root b end, Some e), w'')
  /\ dispatched w'' = dispatched w' ++ [bulk_request x mr s'].
Proof.
  intros Hroot Hrun HG. split.
  - rewrite (BulkWalk_nonempty _ _ _ Hroot), (bulk_run_walk Hrun).
    rewrite bulkWalk_unfold, HG.
    destruct o; apply after_batches_err.
  - apply (@GetBulk_frame _ _ _ _ _ _ HG).
Qed.

(** *** Result channels *)

Lemma closed_app (a b : list ChanEvent) :
  closed (a ++ b) = closed a || closed b.
Proof. apply existsb_app. Qed.

Lemma closed_sends (vs : list SnmpPDU) : closed (map Send vs) = false.
Proof. induction vs; simpl; auto. Qed.

Lemma chans_set_chan (c : nat) (tr : list ChanEvent) w :
  chans (set_chan c tr w) c = tr.
Proof. simpl. rewrite Nat.eqb_refl. reflexivity. Qed.

(** [sends c m]: started on an open channel [c], [m] only sends on it
    (so leaves it open) and only adds to the dispatched requests. *)
Definition sends {A} (c : nat) (m : M (NetState := NetState) A) : Prop :=
  forall w o w', closed (chans w c) = false -> m w = (o, w') ->
    exists vs, chans w' c = chans w c ++ map Send vs.

(** [closes c m]: started on an open channel [c], whenever [m] returns
    it has sent some bindings and then closed [c], once, as its last
    action on [c]. *)
Definition closes {A} (c : nat) (m : M (NetState := NetState) A) : Prop :=
  forall w r w', closed (chans w c) = false -> m w = (Ret r, w') ->
    exists vs, chans w' c = chans w c ++ map Send vs ++ [Close].

Lemma grows_sends {A} (c : nat) (m : M A) : grows m -> sends c m.
Proof.
  intros G w o w' _ H. destruct (G _ _ _ H) as [_ C].
  exists []. rewrite C, app_nil_r. reflexivity.
Qed.

Lemma sends_chan_send (c : nat) (v : SnmpPDU) : sends c (chan_send c v).
Proof.
  intros w o w' Ho H. unfold chan_send in H. rewrite Ho in H.
  inversion H; subst. exists [v]. apply chans_set_chan.
Qed.

Lemma sends_bind {A B} (c : nat) (m : M A) (f : A -> M B) :
  sends c m -> (forall a, sends c (f a)) -> sends c (bind m f).
Proof.
  intros Hm Hf w o w' Ho H. unfold bind in H.
  destruct (m w) as [[a|e|] w1] eqn:E.
  - destruct (Hm _ _ _ Ho E) as [vs1 C1].
    assert (Ho1 : closed (chans w1 c) = false)
      by (rewrite C1, closed_app, Ho, closed_sends; reflexivity).
    destruct (Hf a _ _ _ Ho1 H) as [vs2 C2].
    exists (vs1 ++ vs2). rewrite C2, C1, map_app, app_assoc. reflexivity.
  - inversion H; subst. exact (Hm _ _ _ Ho E).
  - inversion H; subst. exact (Hm _ _ _ Ho E).
Qed.

Lemma sends_ret {A} (c : nat) (a : A) : sends c (ret a).
Proof. apply grows_sends, grows_ret. Qed.

Lemma sends_send_all (c : nat) (vs : list SnmpPDU) : sends c (send_all c vs).
Proof.
  induction vs as [|v vs IH]; cbn [send_all].
  - apply sends_ret.
  - apply sends_bind; [apply sends_chan_send | intros _; exact IH].
Qed.

Lemma closes_bind {A B} (c : nat) (m : M A) (f : A -> M B) :
  sends c m -> (forall a, closes c (f a)) -> closes c (bind m f).
Proof.
  intros Hm Hf w r w' Ho H. unfold bind in H.
  destruct (m w) as [[a|e|] w1] eqn:E; try discriminate.
  destruct (Hm _ _ _ Ho E) as [vs1 C1].
  assert (Ho1 : closed (chans w1 c) = false)
    by (rewrite C1, closed_app, Ho, closed_sends; reflexivity).
  destruct (Hf a _ _ _ Ho1 H) as [vs2 C2].
  exists (vs1 ++ vs2).
  rewrite C2, C1, map_app, <- !app_assoc. reflexivity.
Qed.

Lemma closes_close_ret {A} (c : nat) (a : A) :
  closes c (chan_close c ;;; ret a).
Proof.
  intros w r w' Ho H. unfold bind, chan_close, ret in H.
  rewrite Ho in H. inversion H; subst.
  exists []. apply chans_set_chan.
Qed.

Lemma closes_out_of_fuel {A} (c : nat) : closes c (out_of_fuel (A := A)).
Proof. intros w r w' _ H. discriminate. Qed.

Lemma closes_panic {A} (c : nat) (msg : string) : closes c (panic (A := A) msg).
Proof. intros w r w' _ H. discriminate. Qed.

Lemma closes_StreamWalk_loop x (root : string) (c : nat) (fuel : nat) :
  forall oid, closes c (StreamWalk_loop fuel x root oid c).
Proof.
  induction fuel as [|fuel IH]; intros oid.
  - apply closes_out_of_fuel.
  - cbn [StreamWalk_loop].
    apply closes_bind; [apply grows_sends, grows_GetNext|].
    intros [res [e|]]; simpl; [apply closes_close_ret|].
    destruct res as [res|]; [|apply closes_close_ret].
    destruct (Packet.Variables res) as [|v0 ?]; [apply closes_close_ret|].
    destruct (strings_Index (Name v0) root >? -1); [|apply closes_close_ret].
    apply closes_bind; [apply sends_chan_send | intros _; apply IH].
Qed.

Lemma closes_stream_range rec (root : string) (c : nat) (len : nat)
  (vs : list SnmpPDU) :
  (forall s, grows (rec s)) ->
  forall i, closes c (stream_range rec root c len i vs).
Proof.
  intros Hrec. induction vs as [|v rest IH]; intros i; cbn [stream_range].
  - apply closes_close_ret.
  - destruct (is_endOfMib v); [apply closes_close_ret|].
    destruct (strings_HasPrefix (Name v) root); [|apply IH].
    apply closes_bind; [apply sends_chan_send | intros _].
    destruct (Z.of_nat i =? Z.of_nat len - 1); [|apply IH].
    apply closes_bind; [apply grows_sends, Hrec|].
    intros [sub [e|]]; simpl; [apply closes_close_ret|].
    apply closes_bind; [apply sends_send_all | intros _; apply IH].
Qed.

Lemma closes_StreamWalk x (oid : string) (c : nat) (fuel : nat) :
  closes c (StreamWalk fuel x oid c).
Proof.
  unfold StreamWalk. destruct (String.eqb oid "").
  - apply closes_close_ret.
  - apply closes_StreamWalk_loop.
Qed.

Lemma closes_StreamBulkWalk x (mr : Z) (oid : string) (c : nat) (fuel : nat) :
  closes c (StreamBulkWalk fuel x mr oid c).
Proof.
  unfold StreamBulkWalk.
  apply closes_bind; [apply grows_sends, grows_GetBulk|].
  intros [res [e|]]; simpl; [apply closes_close_ret|].
  apply closes_bind; [apply grows_sends, quiet_grows, quiet_deref|].
  intros p. apply closes_stream_range. intros s. apply grows_bulkWalk.
Qed.

Lemma close_count_once (old : list ChanEvent) (vs : list SnmpPDU) :
  closed old = false ->
  List.length (filter is_Close (old ++ map Send vs ++ [Close])) = 1%nat.
Proof.
  intros Ho. rewrite !filter_app, !length_app.
  assert (H0 : forall l, closed l = false -> filter is_Close l = []).
  { induction l as [|a l IH]; simpl; [reflexivity|].
    destruct (is_Close a); simpl; [discriminate | exact IH]. }
  rewrite (H0 _ Ho), (H0 _ (closed_sends vs)). reflexivity.
Qed.

(** C3.  Whenever a streaming walk returns, with or without an error
    and whichever branch made it return, the trace of its result
    channel (open when the walk starts) is the old trace, then the
    bindings sent, then one close: the close is the last event on the
    channel and the only one. *)
Theorem stream_closed_exactly_once (fuel : nat) x (mr : Z) (oid : string)
  (c : nat) w (r : option error) w' :
  closed (chans w c) = false ->
  StreamWalk fuel x oid c w = (Ret r, w')
  \/ StreamBulkWalk fuel x mr oid c w = (Ret r, w') ->
  (exists vs, chans w' c = chans w c ++ map Send vs ++ [Close])
  /\ List.length (filter is_Close (chans w' c)) = 1%nat.
Proof.
  intros Ho H.
  assert (E : exists vs, chans w' c = chans w c ++ map Send vs ++ [Close]).
  { destruct H as [H|H].
    - exact (@closes_StreamWalk x oid c fuel w r w' Ho H).
    - exact (@closes_StreamBulkWalk x mr oid c fuel w r w' Ho H). }
  split; [exact E|].
  destruct E as [vs E]. rewrite E. apply close_count_once. exact Ho.
Qed.

(** *** The sequential walk *)

Lemma Walk_loop_unfold (fuel : nat) x (root oid : string)
  (results : list SnmpPDU) w :
  Walk_loop (S fuel) x root oid results w
  = match GetNext x oid w with
    | (Ret (_, Some err), w1) => (Ret (results, Some err), w1)
    | (Ret (Some res, None), w1) =>
        match Packet.Variables res with
        | v0 :: _ =>
            if contains_root root v0
            then Walk_loop fuel x root (Name v0) (results ++ [v0]) w1
            else (Ret (results, None), w1)
        | [] => (Ret (results, None), w1)
        end
    | (Ret (None, None), w1) => (Ret (results, None), w1)
    | (Panic msg, w1) => (Panic msg, w1)
    | (OutOfFuel, w1) => (OutOfFuel, w1)
    end.
Proof.
  cbn [Walk_loop]. unfold bind, contains_root.
  destruct (GetNext x oid w) as [[[[res|] [e|]]|m|] w1]; try reflexivity.
  simpl. destruct (Packet.Variables res) as [|v0 ?]; [reflexivity|].
  destruct (strings_Index (Name v0) root >? -1); reflexivity.
Qed.

Lemma Walk_loop_extends x (root : string) (fuel : nat) :
  forall oid results w res e w',
    Walk_loop fuel x root oid results w = (Ret (res, e), w') ->
    exists more, res = results ++ more.
Proof.
  induction fuel as [|fuel IH]; intros oid results w res e w' H.
  - discriminate.
  - rewrite Walk_loop_unfold in H.
    assert (Here : forall w1, (Ret (results, None), w1) = (Ret (res, e), w')
                              -> exists more, res = results ++ more).
    { intros w1 E. inversion E; subst. exists []. rewrite app_nil_r.
      reflexivity. }
    destruct (GetNext x oid w) as [[[[p|] [err|]]|m|] w1];
      try discriminate; try (exact (Here _ H));
      try (inversion H; subst; exists []; rewrite app_nil_r; reflexivity).
    destruct (Packet.Variables p) as [|v0 ?]; [exact (Here _ H)|].
    destruct (contains_root root v0); [|exact (Here _ H)].
    destruct (IH _ _ _ _ _ _ H) as [more E].
    exists (v0 :: more). rewrite E, <- app_assoc. reflexivity.
Qed.

Lemma grows_Walk_loop x (root : string) (fuel : nat) :
  forall oid results, grows (Walk_loop fuel x root oid results).
Proof.
  induction fuel as [|fuel IH]; intros oid results.
  - apply grows_out_of_fuel.
  - cbn [Walk_loop]. apply grows_bind; [apply grows_GetNext|].
    intros [res [e|]]; simpl; [apply grows_ret|].
    destruct res as [res|]; [|apply grows_ret].
    destruct (Packet.Variables res) as [|v0 ?]; [apply grows_ret|].
    destruct (strings_Index (Name v0) root >? -1); [apply IH|apply grows_ret].
Qed.

Lemma Walk_loop_first_request (fuel : nat) x (root oid : string)
  (results : list SnmpPDU) w o w' :
  Walk_loop (S fuel) x root oid results w = (o, w') ->
  exists more, dispatched w' = dispatched w ++ GetNext_packet x oid :: more.
Proof.
  cbn [Walk_loop]. unfold bind at 1.
  destruct (GetNext x oid w) as [[r|e|] w1] eqn:E;
    destruct (GetNext_frame _ _ _ E) as [D _].
  - match goal with
    | |- ?m w1 = _ -> _ => assert (G : grows m)
    end.
    { destruct r as [res [e|]]; simpl; [apply grows_ret|].
      destruct res as [res|]; [|apply grows_ret].
      destruct (Packet.Variables res) as [|v0 ?]; [apply grows_ret|].
      destruct (strings_Index (Name v0) root >? -1);
        [apply grows_Walk_loop | apply grows_ret]. }
    intros H. destruct (G _ _ _ H) as [[more D'] _].
    exists more. rewrite D', D, <- app_assoc. reflexivity.
  - intros H. inversion H; subst. exists []. exact D.
  - intros H. inversion H; subst. exists []. exact D.
Qed.

(** C10.  The sequential walk does not look at the value of a binding.
    When GetNext returns a first binding [v] that carries the
    sentinel value and passes the walk's range test, [Walk] appends
    [v] to its results and [StreamWalk] sends it, both go on from
    [v.Name] (the next request dispatched is GetNext for [v.Name]),
    and [v] is among the results of every [Walk] that returns.  The
    bulk walk given the same binding at the head of its batch stops
    there with no result and no error. *)
Theorem sequential_walk_ignores_sentinel (fuel : nat) x (root oid : string)
  (c : nat) w p w1 (v : SnmpPDU) (rest results : list SnmpPDU) :
  GetNext x oid w = (Ret (Some p, None), w1) ->
  Packet.Variables p = v :: rest ->
  is_endOfMib v = true ->
  contains_root root v = true ->
  Walk_loop (S fuel) x root oid results w
  = Walk_loop fuel x root (Name v) (results ++ [v]) w1
  /\ StreamWalk_loop (S fuel) x root oid c w
     = (chan_send c v ;;; StreamWalk_loop fuel x root (Name v) c) w1
  /\ (forall res e w',
        Walk_loop (S fuel) x root oid results w = (Ret (res, e), w') ->
        exists more, res = results ++ v :: more)
  /\ (forall o w',
        Walk_loop (S (S fuel)) x root oid results w = (o, w') ->
        exists more,
          dispatched w' = dispatched w1 ++ GetNext_packet x (Name v) :: more)
  /\ (forall mr pb wb restb,
        GetBulk x 0 mr [oid] w = (Ret (Some pb, None), wb) ->
        Packet.Variables pb = v :: restb ->
        _bulkWalk (S fuel) x mr oid root w = (Ret ([], None), wb)).
Proof.
  intros HG Hvs Hs Hin.
  assert (Step : forall f, Walk_loop (S f) x root oid results w
                           = Walk_loop f x root (Name v) (results ++ [v]) w1).
  { intros f. rewrite Walk_loop_unfold, HG, Hvs, Hin. reflexivity. }
  split; [apply Step|]. split; [|split; [|split]].
  - cbn [StreamWalk_loop]. unfold bind at 1. rewrite HG. simpl.
    rewrite Hvs. unfold contains_root in Hin. rewrite Hin. reflexivity.
  - intros res e w' H. rewrite Step in H.
    destruct (Walk_loop_extends _ _ _ _ _ _ H) as [more E].
    exists more. rewrite E, <- app_assoc. reflexivity.
  - intros o w' H. rewrite Step in H.
    exact (@Walk_loop_first_request _ _ _ _ _ _ _ _ H).
  - intros mr pb wb restb HB Hb.
    rewrite (@bulkWalk_batch_stop fuel _ _ _ root _ _ _ HB).
    + rewrite Hb. simpl. rewrite Hs. reflexivity.
    + rewrite Hb. apply (recurses_split root [] restb v Hs).
Qed.

Unset Implicit Arguments.

(** *** The streaming bulk walk follows the blocking one *)

(** A computation is blind to the channels when running it with other
    channels changes nothing but the channels it hands back. *)
Definition blind {A} (m : M (NetState := NetState) A) : Prop :=
  forall ch w, m (with_chans ch w) = (fst (m w), with_chans ch (snd (m w))).

Lemma blind_ret {A} (a : A) : blind (ret a).
Proof. intros ch w. reflexivity. Qed.

Lemma blind_panic {A} (msg : string) : blind (panic (A := A) msg).
Proof. intros ch w. reflexivity. Qed.

Lemma blind_out_of_fuel {A} : blind (out_of_fuel (A := A)).
Proof. intros ch w. reflexivity. Qed.

Lemma blind_call {A} (o : outcome A) : blind (call o).
Proof. intros ch w. reflexivity. Qed.

Lemma blind_time_Now : blind time_Now.
Proof. intros ch w. reflexivity. Qed.

Lemma blind_deref {A} (p : option A) : blind (deref p).
Proof. destruct p; [apply blind_ret | apply blind_panic]. Qed.

Lemma blind_on_net {A} (f : NetState -> A * NetState) : blind (on_net f).
Proof.
  intros ch w. unfold on_net, with_chans. simpl.
  destruct (f (net w)); reflexivity.
Qed.

Lemma blind_log_written (b : bytes) : blind (log_written b).
Proof. intros ch w. reflexivity. Qed.

Lemma blind_log_dispatched (p : SnmpPacket) : blind (log_dispatched p).
Proof. intros ch w. reflexivity. Qed.

Lemma blind_bind {A B} (m : M A) (f : A -> M B) :
  blind m -> (forall a, blind (f a)) -> blind (bind m f).
Proof.
  intros Hm Hf ch w. unfold bind. rewrite Hm.
  destruct (m w) as [[a|e|] w1]; simpl; [apply Hf | reflexivity..].
Qed.

Lemma blind_recovering {A} (zero : A) (body : M A) :
  blind body -> blind (recovering zero body).
Proof.
  intros Hb ch w. unfold recovering. rewrite Hb.
  destruct (body w) as [[a|e|] w1]; reflexivity.
Qed.

Create HintDb blind.

#[local] Hint Resolve blind_ret blind_panic blind_out_of_fuel blind_call
  blind_time_Now blind_deref blind_on_net blind_log_written
  blind_log_dispatched : blind.

Ltac blind_steps :=
  repeat first
    [ apply blind_bind; [ solve [auto with blind] | intros ? ]
    | match goal with
      | |- blind (match ?e with _ => _ end) => destruct e
      | |- blind (if ?e then _ else _) => destruct e
      end
    | solve [auto with blind] ].

Lemma blind_sendPacket x p : blind (sendPacket x p).
Proof. unfold sendPacket. blind_steps. Qed.

Lemma blind_GetBulk x nr mr oids : blind (GetBulk x nr mr oids).
Proof.
  unfold GetBulk. apply blind_bind; [|intros r; apply blind_ret].
  apply blind_recovering. apply blind_bind; [apply blind_call|].
  intros p. apply blind_sendPacket.
Qed.

Lemma blind_bulk_range rec (root : string) (len : nat) (vs : list SnmpPDU) :
  (forall s, blind (rec s)) ->
  forall i results, blind (bulk_range rec root len i vs results).
Proof.
  intros Hrec. induction vs as [|v rest IH]; intros i results.
  - apply blind_ret.
  - cbn [bulk_range].
    destruct (is_endOfMib v); [apply blind_ret|].
    destruct (strings_HasPrefix (Name v) root); [|apply IH].
    destruct (Z.of_nat i =? Z.of_nat len - 1); [|apply IH].
    apply blind_bind; [apply Hrec|].
    intros [sub [e|]]; simpl; [apply blind_ret | apply IH].
Qed.

Lemma blind_bulkWalk x (mr : Z) (root : string) (f : nat) :
  forall s, blind (_bulkWalk f x mr s root).
Proof.
  induction f as [|f IH]; intros s.
  - apply blind_out_of_fuel.
  - cbn [_bulkWalk]. apply blind_bind; [apply blind_GetBulk|].
    intros [r [e|]]; simpl; [apply blind_ret|].
    apply blind_bind; [apply blind_deref|].
    intros p. apply blind_bulk_range. exact IH.
Qed.

Lemma chan_send_open (c : nat) (v : SnmpPDU) ch w :
  closed (ch c) = false ->
  chan_send c v (with_chans ch w)
  = (Ret tt, with_chans (fun k => if Nat.eqb k c then ch c ++ [Send v]
                                   else ch k) w).
Proof. intros Ho. unfold chan_send. simpl. rewrite Ho. reflexivity. Qed.

Lemma chan_close_open (c : nat) ch w :
  closed (ch c) = false ->
  chan_close c (with_chans ch w)
  = (Ret tt, with_chans (fun k => if Nat.eqb k c then ch c ++ [Close]
                                   else ch k) w).
Proof. intros Ho. unfold chan_close. simpl. rewrite Ho. reflexivity. Qed.

Lemma send_all_open (c : nat) (vs : list SnmpPDU) :
  forall ch w, closed (ch c) = false ->
    exists ch', send_all c vs (with_chans ch w) = (Ret tt, with_chans ch' w)
                /\ ch' c = ch c ++ map Send vs.
Proof.
  induction vs as [|v vs IH]; intros ch w Ho.
  - exists ch. split; [reflexivity | rewrite app_nil_r; reflexivity].
  - cbn [send_all]. unfold bind. rewrite (chan_send_open _ _ _ _ Ho).
    destruct (IH (fun k => if Nat.eqb k c then ch c ++ [Send v] else ch k) w)
      as [ch' [E C]].
    { rewrite Nat.eqb_refl, closed_app, Ho. reflexivity. }
    exists ch'. split; [exact E|].
    rewrite C, Nat.eqb_refl, <- app_assoc. reflexivity.
Qed.

Lemma close_ret_open (c : nat) (r : option error) ch w (sent : list SnmpPDU)
  (old : list ChanEvent) :
  closed old = false ->
  ch c = old ++ map Send sent ->
  exists ch', (chan_close c ;;; ret r) (with_chans ch w)
              = (Ret r, with_chans ch' w)
              /\ ch' c = old ++ map Send sent ++ [Close].
Proof.
  intros Ho Hc.
  assert (Hopen : closed (ch c) = false)
    by (rewrite Hc, closed_app, Ho, closed_sends; reflexivity).
  unfold bind. rewrite (chan_close_open _ _ _ Hopen).
  eexists. split; [reflexivity|].
  simpl. rewrite Nat.eqb_refl, Hc, <- app_assoc. reflexivity.
Qed.

(** The [range] loop of [StreamBulkWalk] against the one of
    [_bulkWalk], run from worlds that differ in their channels only:
    where the blocking loop returns [results ++ new] and an error
    value, the streaming loop returns that error value having sent
    [new] (on an error from below: the in-range bindings of the
    batch) and closed the channel. *)
Lemma stream_range_follows rec (root : string) (c : nat) (len : nat)
  (old : list ChanEvent) (vs : list SnmpPDU) :
  (forall s, blind (rec s)) ->
  closed old = false ->
  forall i results sent ch w res e w',
    ch c = old ++ map Send sent ->
    bulk_range rec root len i vs results w = (Ret (res, e), w') ->
    exists new ch',
      res = results ++ new
      /\ stream_range rec root c len i vs (with_chans ch w)
         = (Ret e, with_chans ch' w')
      /\ ch' c = old ++ map Send (sent ++ new) ++ [Close].
Proof.
  intros Hrec Hold. induction vs as [|v rest IH];
    intros i results sent ch w res e w' Hc H.
  - cbn [bulk_range] in H. inversion H; subst.
    destruct (close_ret_open c None ch w' sent old Hold Hc) as [ch' [E C]].
    exists [], ch'. rewrite !app_nil_r. auto.
  - cbn [bulk_range] in H. cbn [stream_range].
    destruct (is_endOfMib v).
    { inversion H; subst.
      destruct (close_ret_open c None ch w' sent old Hold Hc) as [ch' [E C]].
      exists [], ch'. rewrite !app_nil_r. auto. }
    destruct (strings_HasPrefix (Name v) root).
    2:{ exact (IH _ _ _ _ _ _ _ _ Hc H). }
    assert (Hopen : closed (ch c) = false)
      by (rewrite Hc, closed_app, Hold, closed_sends; reflexivity).
    unfold bind at 1. rewrite (chan_send_open _ _ _ _ Hopen).
    set (ch1 := fun k => if Nat.eqb k c then ch c ++ [Send v] else ch k).
    assert (Hc1 : ch1 c = old ++ map Send (sent ++ [v])).
    { unfold ch1. rewrite Nat.eqb_refl, Hc, map_app, <- app_assoc.
      reflexivity. }
    destruct (Z.of_nat i =? Z.of_nat len - 1).
    2:{ destruct (IH _ _ _ _ _ _ _ _ Hc1 H) as [new [ch' [E1 [E2 C]]]].
        exists (v :: new), ch'. split; [|split; [exact E2|]].
        - rewrite E1, <- app_assoc. reflexivity.
        - rewrite C, <- app_assoc. reflexivity. }
    unfold bind in H. unfold bind at 1. rewrite (Hrec (Name v) ch1 w).
    destruct (rec (Name v) w) as [[[sub [err|]]|m|] w1]; simpl in H |- *;
      try discriminate.
    + inversion H; subst.
      destruct (close_ret_open c (Some err) ch1 w' (sent ++ [v]) old Hold Hc1)
        as [ch' [E C]].
      exists [v], ch'. auto.
    + unfold bind at 1.
      destruct (send_all_open c sub ch1 w1) as [ch2 [E2 C2]].
      { rewrite Hc1, closed_app, Hold, closed_sends. reflexivity. }
      rewrite E2.
      assert (Hc2 : ch2 c = old ++ map Send ((sent ++ [v]) ++ sub)).
      { rewrite C2, Hc1, (map_app Send (sent ++ [v])), <- app_assoc.
        reflexivity. }
      destruct (IH _ _ _ _ _ _ _ _ Hc2 H) as [new [ch' [E1 [E3 C]]]].
      exists (v :: sub ++ new), ch'. split; [|split; [exact E3|]].
      * rewrite E1, <- !app_assoc. reflexivity.
      * rewrite C, <- !app_assoc. reflexivity.
Qed.

Lemma with_chans_same w : with_chans (chans w) w = w.
Proof. destruct w; reflexivity. Qed.

(** Where the blocking bulk walk returns, the streaming bulk walk
    given one unit of fuel less (its first batch is fetched by
    [StreamBulkWalk] itself) returns the same error value, having
    dispatched the same requests; without an error it has sent
    exactly the blocking results and then closed the channel. *)
Lemma StreamBulkWalk_follows (f : nat) x (mr : Z) (root : string) (c : nat)
  w (res : list SnmpPDU) w' :
  closed (chans w c) = false ->
  _bulkWalk (S f) x mr root root w = (Ret (res, None), w') ->
  exists ws, StreamBulkWalk f x mr root c w = (Ret None, ws)
    /\ chans ws c = chans w c ++ map Send res ++ [Close]
    /\ dispatched ws = dispatched w'
    /\ net ws = net w'.
Proof.
  intros Ho H. rewrite bulkWalk_unfold in H. unfold StreamBulkWalk, bind.
  destruct (GetBulk x 0 mr [root] w) as [[[[p|] [e|]]|m|] w1] eqn:HG;
    try discriminate.
  simpl.
  destruct (GetBulk_frame _ _ _ _ HG) as [_ C1].
  destruct (@stream_range_follows
              (fun s => _bulkWalk f x mr s root) root c
              (List.length (Packet.Variables p)) (chans w c)
              (Packet.Variables p)
              (blind_bulkWalk x mr root f) Ho
              0%nat [] [] (chans w1) w1 res None w')
    as [new [ch' [E1 [E2 C]]]].
  - rewrite C1, app_nil_r. reflexivity.
  - exact H.
  - rewrite with_chans_same in E2. rewrite E2.
    exists (with_chans ch' w'). simpl in E1. subst new.
    split; [reflexivity|]. split; [exact C|]. split; reflexivity.
Qed.

(** C5.  Let the batch fetched after the batches [bs] (each free of
    sentinels and ending in range) hold the sentinel at some position.
    Then the blocking bulk walk returns, without error, the in-range
    bindings of [bs] followed by the in-range bindings that precede
    the sentinel, and nothing of what follows it; the request that
    fetched this batch is the last one dispatched; and the streaming
    bulk walk sends exactly those bindings, closes the channel and
    returns no error, having dispatched the same requests. *)
Theorem bulk_walk_stops_at_sentinel x (mr : Z) (root : string) (c : nat)
  w bs s' w' p w'' (pre post : list SnmpPDU) (v : SnmpPDU) (k : nat) :
  root <> "" ->
  closed (chans w c) = false ->
  bulk_run x mr root root w bs s' w' ->
  GetBulk x 0 mr [s'] w' = (Ret (Some p, None), w'') ->
  Packet.Variables p = pre ++ v :: post ->
  no_sentinel pre = true ->
  is_endOfMib v = true ->
  let kept := List.concat (map (emitted root) bs) ++ emitted root pre in
  BulkWalk (S k + List.length bs) x mr root w = (Ret (kept, None), w'')
  /\ dispatched w'' = dispatched w' ++ [bulk_request x mr s']
  /\ exists ws,
       StreamBulkWalk (k + List.length bs) x mr root c w = (Ret None, ws)
       /\ chans ws c = chans w c ++ map Send kept ++ [Close]
       /\ dispatched ws = dispatched w''.
Proof.
  intros Hroot Ho Hrun HG Hvs Hpre Hv kept.
  destruct (@bulkWalk_sentinel x mr root root w bs s' w' p w'' pre post v k
              Hrun HG Hvs Hpre Hv) as [E D].
  split; [rewrite (BulkWalk_nonempty _ _ _ Hroot); exact E|].
  split; [exact D|].
  destruct (@StreamBulkWalk_follows (k + List.length bs) x mr root c w
              kept w'' Ho E) as [ws [E1 [E2 [E3 _]]]].
  exists ws. auto.
Qed.

(** *** The empty OID *)

(** [Walk], [BulkWalk] and [StreamWalk] reject the empty OID before
    anything is dispatched or written; [StreamWalk] closes its channel. *)
Lemma empty_oid_rejected (fuel : nat) (x : Conn NetState) (mr : Z) (c : nat)
  (w : World NetState) :
  Walk fuel x "" w = (Ret ([], Some ("No OID given" ++ nl)%string), w)
  /\ BulkWalk fuel x mr "" w = (Ret ([], Some ("No OID given" ++ nl)%string), w)
  /\ (closed (chans w c) = false ->
      StreamWalk fuel x "" c w
      = (Ret (Some ("No OID given" ++ nl)%string),
         set_chan c (chans w c ++ [Close]) w)).
Proof.
  split; [reflexivity|]. split; [reflexivity|].
  intros Ho. unfold StreamWalk, bind, chan_close. simpl. rewrite Ho.
  reflexivity.
Qed.

(** *** Sequential walk and bulk walk over one simulated subtree *)

Lemma emitted_all (root : string) (l : list SnmpPDU) :
  (forall v, In v l -> in_range root v = true) -> emitted root l = l.
Proof.
  induction l as [|a l IH]; intros H; [reflexivity|].
  unfold emitted in *. cbn [filter].
  rewrite (H a (or_introl eq_refl)), IH; [reflexivity|].
  intros v Hv. apply H. right. exact Hv.
Qed.

Lemma emitted_none (root : string) (l : list SnmpPDU) :
  (forall v, In v l -> in_range root v = false) -> emitted root l = [].
Proof.
  induction l as [|a l IH]; intros H; [reflexivity|].
  unfold emitted in *. cbn [filter].
  rewrite (H a (or_introl eq_refl)), IH; [reflexivity|].
  intros v Hv. apply H. right. exact Hv.
Qed.

Lemma emitted_app (root : string) (a b : list SnmpPDU) :
  emitted root (a ++ b) = emitted root a ++ emitted root b.
Proof. apply filter_app. Qed.

Lemma no_sentinel_forall (l : list SnmpPDU) :
  (forall v, In v l -> is_endOfMib v = false) -> no_sentinel l = true.
Proof.
  intros H. apply forallb_forall. intros v Hv. rewrite (H v Hv). reflexivity.
Qed.

Lemma last_pdu_app (a b : list SnmpPDU) :
  b <> [] -> last_pdu (a ++ b) = last_pdu b.
Proof.
  intros Hb. induction a as [|h a IH]; [reflexivity|].
  cbn [app]. destruct (a ++ b) eqn:E.
  - destruct a; destruct b; try discriminate. contradiction.
  - rewrite last_pdu_cons. exact IH.
Qed.

Lemma last_pdu_In (l : list SnmpPDU) (v : SnmpPDU) :
  last_pdu l = Some v -> In v l.
Proof.
  induction l as [|a l IH]; [discriminate|].
  destruct l as [|b l].
  - simpl. intros H. inversion H. auto.
  - rewrite last_pdu_cons. intros H. right. exact (IH H).
Qed.

Lemma In_firstn (A : Type) (n : nat) (l : list A) (v : A) :
  In v (firstn n l) -> In v l.
Proof.
  intros H. rewrite <- (firstn_skipn n l). apply in_or_app. left. exact H.
Qed.

Section SimulatedSubtree.
Variable x : Conn NetState.
Variable maxRepetitions : Z.
Variable root : string.
(** What holds of every world in which the agent serves the subtree. *)
Variable Serving : World NetState -> Prop.
(** The bindings that follow an OID in the agent's tree order. *)
Variable after : string -> list SnmpPDU.
(** After the root come the bindings [inside], then [out], then [beyond]. *)
Variables (inside : list SnmpPDU) (out : SnmpPDU) (beyond : list SnmpPDU).

Hypothesis root_given : root <> "".
Hypothesis repetitions_positive : 1 <= maxRepetitions.
Hypothesis after_root : after root = inside ++ out :: beyond.
Hypothesis after_inside : forall a v b,
  inside = a ++ v :: b -> after (Name v) = b ++ out :: beyond.
Hypothesis inside_in_range : forall v, In v inside -> in_range root v = true.
Hypothesis out_outside : contains_root root out = false.
Hypothesis beyond_out_of_range :
  forall v, In v beyond -> in_range root v = false.
Hypothesis values_plain :
  forall v, In v (inside ++ out :: beyond) -> is_endOfMib v = false.
Hypothesis agent_next : forall oid w,
  Serving w -> after oid <> [] ->
  exists p w', GetNext x oid w = (Ret (Some p, None), w')
    /\ hd_error (Packet.Variables p) = hd_error (after oid)
    /\ Serving w'.
Hypothesis agent_bulk : forall oid w,
  Serving w -> after oid <> [] ->
  exists p w', GetBulk x 0 maxRepetitions [oid] w = (Ret (Some p, None), w')
    /\ Packet.Variables p = firstn (Z.to_nat maxRepetitions) (after oid)
    /\ Serving w'.

Lemma out_not_in_range : in_range root out = false.
Proof.
  destruct (in_range root out) eqn:E; [|reflexivity].
  rewrite (@in_range_contains_root _ _ E) in out_outside. discriminate.
Qed.

Lemma walk_from (todo : list SnmpPDU) :
  forall done oid w results (f : nat),
    inside = done ++ todo ->
    after oid = todo ++ out :: beyond ->
    Serving w ->
    (List.length todo < f)%nat ->
    exists w', Walk_loop f x root oid results w
               = (Ret (results ++ todo, None), w')
               /\ Serving w'.
Proof.
  induction todo as [|v todo IH]; intros done oid w results f Hin Haft Hw Hf.
  - destruct f as [|f]; [simpl in Hf; lia|].
    destruct (agent_next oid w Hw) as [p [w' [HG [Hhd Hw']]]].
    { rewrite Haft. discriminate. }
    rewrite Haft in Hhd. simpl in Hhd.
    exists w'. split; [|exact Hw'].
    rewrite Walk_loop_unfold, HG.
    destruct (Packet.Variables p) as [|v0 ?]; [discriminate|].
    simpl in Hhd. inversion Hhd; subst v0.
    rewrite out_outside, app_nil_r. reflexivity.
  - destruct f as [|f]; [simpl in Hf; lia|].
    destruct (agent_next oid w Hw) as [p [w1 [HG [Hhd Hw1]]]].
    { rewrite Haft. discriminate. }
    rewrite Haft in Hhd. simpl in Hhd.
    assert (Hv : in_range root v = true).
    { apply inside_in_range. rewrite Hin. apply in_or_app. right. left.
      reflexivity. }
    destruct (IH (done ++ [v]) (Name v) w1 (results ++ [v]) f)
      as [w' [E Hw']].
    + rewrite Hin, <- app_assoc. reflexivity.
    + apply (after_inside done v todo Hin).
    + exact Hw1.
    + simpl in Hf. lia.
    + exists w'. split; [|exact Hw'].
      rewrite Walk_loop_unfold, HG.
      destruct (Packet.Variables p) as [|v0 ?]; [discriminate|].
      simpl in Hhd. inversion Hhd; subst v0.
      rewrite (@in_range_contains_root _ _ Hv), E, <- app_assoc. reflexivity.
Qed.

(** The batch that reaches past the subtree ends the bulk walk. *)
Lemma bulk_last_batch (todo done : list SnmpPDU) (s : string) w (f : nat) :
  inside = done ++ todo ->
  after s = todo ++ out :: beyond ->
  Serving w ->
  (List.length todo < Z.to_nat maxRepetitions)%nat ->
  exists w', _bulkWalk (S f) x maxRepetitions s root w
             = (Ret (todo, None), w')
             /\ Serving w'.
Proof.
  intros Hin Haft Hw Hm.
  destruct (agent_bulk s w Hw) as [p [w' [HG [Hvs Hw']]]].
  { rewrite Haft. destruct todo; discriminate. }
  exists w'. split; [|exact Hw'].
  rewrite Haft, firstn_app in Hvs.
  rewrite (firstn_all2 (n := Z.to_nat maxRepetitions) todo) in Hvs by lia.
  destruct (Z.to_nat maxRepetitions - List.length todo)%nat as [|k] eqn:Ek;
    [lia|].
  cbn [firstn] in Hvs.
  assert (Hplain : no_sentinel (Packet.Variables p) = true).
  { apply no_sentinel_forall. intros v Hv. apply values_plain.
    rewrite Hvs in Hv. apply in_app_or in Hv. apply in_or_app.
    destruct Hv as [Hv|[Hv|Hv]];
      [left; rewrite Hin; apply in_or_app; right; exact Hv
      | right; left; exact Hv |].
    right. right. exact (In_firstn _ _ _ _ Hv). }
  assert (Hout : forall v, In v (out :: firstn k beyond) ->
                           in_range root v = false).
  { intros v [<-|Hv]; [apply out_not_in_range|].
    apply beyond_out_of_range. exact (In_firstn _ _ _ _ Hv). }
  rewrite (@bulkWalk_batch_stop f _ _ _ root _ _ _ HG).
  - rewrite (@before_sentinel_clean _ Hplain), Hvs, emitted_app.
    rewrite (@emitted_none _ _ Hout), app_nil_r.
    rewrite emitted_all; [reflexivity|].
    intros v Hv. apply inside_in_range. rewrite Hin. apply in_or_app.
    right. exact Hv.
  - unfold recurses, last_in_range.
    rewrite Hvs, last_pdu_app by discriminate.
    destruct (last_pdu (out :: firstn k beyond)) as [l|] eqn:El;
      [|apply andb_false_r].
    rewrite (Hout _ (@last_pdu_In _ _ El)). apply andb_false_r.
Qed.

(** A batch that lies inside the subtree is kept whole, and the walk
    goes on from its last binding. *)
Lemma bulk_inner_batch (todo done : list SnmpPDU) (s : string) w (f : nat) :
  inside = done ++ todo ->
  after s = todo ++ out :: beyond ->
  Serving w ->
  (Z.to_nat maxRepetitions <= List.length todo)%nat ->
  exists l b w1,
    firstn (Z.to_nat maxRepetitions) todo = b ++ [l]
    /\ after (Name l) = skipn (Z.to_nat maxRepetitions) todo ++ out :: beyond
    /\ Serving w1
    /\ _bulkWalk (S f) x maxRepetitions s root w
       = after_batch (firstn (Z.to_nat maxRepetitions) todo)
                     (_bulkWalk f x maxRepetitions (Name l) root w1).
Proof.
  intros Hin Haft Hw Hm.
  set (m := Z.to_nat maxRepetitions) in *.
  assert (Hm1 : (1 <= m)%nat) by (unfold m; lia).
  destruct (agent_bulk s w Hw) as [p [w1 [HG [Hvs Hw1]]]].
  { rewrite Haft. destruct todo; discriminate. }
  fold m in Hvs. rewrite Haft, firstn_app in Hvs.
  replace (m - List.length todo)%nat with 0%nat in Hvs by lia.
  cbn [firstn] in Hvs. rewrite app_nil_r in Hvs.
  assert (Hne : firstn m todo <> []).
  { intros E. apply (f_equal (@List.length _)) in E.
    rewrite length_firstn in E. simpl in E. lia. }
  destruct (exists_last Hne) as [b [l Hb]].
  assert (Hsplit : todo = b ++ l :: skipn m todo).
  { rewrite <- (firstn_skipn m todo) at 1. rewrite Hb, <- app_assoc.
    reflexivity. }
  assert (Hsub : forall v, In v (firstn m todo) -> In v inside).
  { intros v Hv. rewrite Hin. apply in_or_app. right.
    exact (In_firstn _ _ _ _ Hv). }
  assert (Hrec : recurses root (Packet.Variables p) = true).
  { unfold recurses, last_in_range. rewrite Hvs. apply andb_true_intro. split.
    - apply no_sentinel_forall. intros v Hv. apply values_plain.
      apply in_or_app. left. exact (Hsub v Hv).
    - rewrite Hb, last_pdu_app by discriminate. simpl.
      apply inside_in_range, Hsub. rewrite Hb. apply in_or_app. right.
      left. reflexivity. }
  destruct (@bulkWalk_batch_recurse f _ _ _ root _ _ _ HG Hrec)
    as [l' [Hl' [_ E]]].
  rewrite Hvs, Hb, last_pdu_app in Hl' by discriminate.
  simpl in Hl'. inversion Hl'; subst l'.
  exists l, b, w1. split; [exact Hb|]. split; [|split; [exact Hw1|]].
  - apply (after_inside (done ++ b) l (skipn m todo)).
    rewrite Hin, Hsplit at 1. rewrite <- app_assoc. reflexivity.
  - rewrite E, Hvs, emitted_all; [reflexivity|].
    intros v Hv. apply inside_in_range, Hsub. exact Hv.
Qed.

Lemma bulk_from (n : nat) :
  forall todo done s w (f : nat),
    (List.length todo <= n)%nat ->
    inside = done ++ todo ->
    after s = todo ++ out :: beyond ->
    Serving w ->
    (List.length todo < f)%nat ->
    exists w', _bulkWalk f x maxRepetitions s root w = (Ret (todo, None), w')
               /\ Serving w'.
Proof.
  induction n as [|n IH]; intros todo done s w f Hn Hin Haft Hw Hf;
    (destruct f as [|f]; [lia|]);
    destruct (Nat.lt_ge_cases (List.length todo) (Z.to_nat maxRepetitions))
      as [Hm|Hm];
    try (exact (bulk_last_batch todo done s w f Hin Haft Hw Hm)).
  - lia.
  - destruct (bulk_inner_batch todo done s w f Hin Haft Hw Hm)
      as [l [b [w1 [Hb [Haft' [Hw1 E]]]]]].
    assert (Hlen : (List.length (skipn (Z.to_nat maxRepetitions) todo)
                    < List.length todo)%nat)
      by (rewrite length_skipn; lia).
    destruct (IH (skipn (Z.to_nat maxRepetitions) todo)
                 (done ++ firstn (Z.to_nat maxRepetitions) todo)
                 (Name l) w1 f) as [w' [E' Hw']].
    + lia.
    + rewrite <- app_assoc, firstn_skipn. exact Hin.
    + exact Haft'.
    + exact Hw1.
    + lia.
    + exists w'. split; [|exact Hw'].
      rewrite E, E'. simpl. rewrite firstn_skipn. reflexivity.
Qed.

(** C2, as the code has it.  Over an agent that serves, after the
    root, bindings whose Names begin with the root, then a binding
    whose Name does not contain the root, then bindings whose Names do
    not begin with it, none of them carrying the sentinel value, and
    with at least one repetition per batch, [Walk] and [BulkWalk] both
    return those first bindings, in order and without error. *)
Theorem Walk_BulkWalk_agree w (fuel : nat) :
  Serving w ->
  (List.length inside < fuel)%nat ->
  exists w1 w2,
    Walk fuel x root w = (Ret (inside, None), w1)
    /\ BulkWalk fuel x maxRepetitions root w = (Ret (inside, None), w2).
Proof.
  intros Hw Hf.
  destruct (walk_from inside [] root w [] fuel eq_refl after_root Hw Hf)
    as [w1 [E1 _]].
  destruct (@bulk_from (List.length inside) inside [] root w fuel
              (Nat.le_refl _) eq_refl after_root Hw Hf) as [w2 [E2 _]].
  exists w1, w2. split.
  - unfold Walk. destruct (String.eqb_spec root ""); [contradiction|].
    exact E1.
  - rewrite (@BulkWalk_nonempty fuel x maxRepetitions root root_given). exact E2.
Qed.

End SimulatedSubtree.

Set Implicit Arguments.

End Properties.

(** ** Runs on the simulated agent *)

Lemma outcome_and_world {A W : Type} (r : A * W) (a : A) :
  fst r = a -> r = (a, snd r).
Proof. intros <-. destruct r; reflexivity. Defined.

(** Settles [run = (outcome, world)] where [world] is by definition
    the world that [run] ends in: the outcome is computed. *)
Ltac by_running :=
  match goal with
  | |- ?r = (?a, _) =>
      exact (@outcome_and_world _ _ r a ltac:(vm_compute; reflexivity))
  end.

Definition mib_past_subtree : list SnmpPDU :=
  [Sim.leaf "1.3.1" "a"; Sim.leaf "1.4.1.3" "b"; Sim.leaf "1.5.1" "c"].

(** C1, at the failing input.  The agent serves 1.3.1, 1.4.1.3 and
    1.5.1 and the walk is rooted at 1.3.  The Name 1.4.1.3 does not
    begin with the root but holds it at index 4, so [Walk] returns it
    among its results and [StreamWalk] sends it; both stop only at
    1.5.1. *)
Theorem sequential_walk_emits_name_without_root_prefix :
  strings_HasPrefix "1.4.1.3" "1.3" = false
  /\ strings_Index "1.4.1.3" "1.3" = 4
  /\ fst (Walk (codec := Sim.codec) 5 Sim.session "1.3"
            (Sim.world mib_past_subtree))
     = Ret ([Sim.leaf "1.3.1" "a"; Sim.leaf "1.4.1.3" "b"], None)
  /\ (let r := StreamWalk (codec := Sim.codec) 5 Sim.session "1.3" 0
                 (Sim.world mib_past_subtree) in
      fst r = Ret None
      /\ chans (snd r) 0%nat
         = [Send (Sim.leaf "1.3.1" "a"); Send (Sim.leaf "1.4.1.3" "b"); Close]).
Proof. vm_compute. repeat split. Qed.

Definition mib_small : list SnmpPDU :=
  [Sim.leaf "1.3.1" "a"; Sim.leaf "1.3.2" "b"; Sim.leaf "1.4.1" "c"].

Definition mib_whole : list SnmpPDU :=
  [Sim.leaf "1.3.1" "a"; Sim.leaf "1.3.2" "b";
   mkPDU "1.3.2" EndOfMibView (VStr "endOfMib")].

(** C4, at the failing input.  [StreamBulkWalk] has no test for the
    empty OID: called with it, it dispatches a GetBulk request for the
    empty OID, writes it to the connection, and walks the agent's
    whole tree, returning no error. *)
Theorem StreamBulkWalk_dispatches_for_empty_oid :
  let r := StreamBulkWalk (codec := Sim.codec) 5 Sim.session 2 "" 0
             (Sim.world mib_whole) in
  fst r = Ret None
  /\ hd_error (dispatched (snd r)) = Some (bulk_request Sim.session 2 "")
  /\ List.length (written (snd r)) = 2%nat
  /\ chans (snd r) 0%nat
     = [Send (Sim.leaf "1.3.1" "a"); Send (Sim.leaf "1.3.2" "b"); Close].
Proof. vm_compute. repeat split. Qed.

(** C8, at the failing input.  On a session whose connection is nil
    the call [x.conn.SetDeadline] panics inside [sendPacket].  The
    deferred closure recovers and stores the error in the local
    variable [err], which is not a result of the function: every
    single-shot operation returns a nil response together with a nil
    error. *)
Theorem single_shot_fault_returns_nil_response_nil_error :
  let w := Sim.world mib_small in
  fst (sendPacket (codec := Sim.codec) Sim.unconnected
         (GetNext_packet Sim.unconnected "1.3") w)
  = Panic "invalid memory address or nil pointer dereference"
  /\ fst (recovering (None, None)
            (sendPacket (codec := Sim.codec) Sim.unconnected
               (GetNext_packet Sim.unconnected "1.3")) w)
     = Ret ((None, None),
            Some "invalid memory address or nil pointer dereference")
  /\ fst (Get (codec := Sim.codec) Sim.unconnected "1.3" w)
     = Ret (None, None)
  /\ fst (GetNext (codec := Sim.codec) Sim.unconnected "1.3" w)
     = Ret (None, None)
  /\ fst (GetBulk (codec := Sim.codec) Sim.unconnected 0 2 ["1.3"] w)
     = Ret (None, None)
  /\ fst (GetMulti (codec := Sim.codec) Sim.unconnected ["1.3"; "1.4"] w)
     = Ret (None, None).
Proof. vm_compute. repeat split. Qed.

Definition mib_sentinel_first : list SnmpPDU :=
  [Sim.leaf "1.3.1" "endOfMib"; Sim.leaf "1.3.2" "b"; Sim.leaf "1.4.1" "c"].

(** C6 as stated fails.  The first batch is 1.3.1 (sentinel value) and
    1.3.2: it is not empty and its last binding is in range and is not
    the sentinel, yet the walk dispatches no second request, because
    the sentinel on the first binding has ended it. *)
Lemma last_in_range_batch_without_second_request :
  let w := Sim.world mib_sentinel_first in
  let batch := [Sim.leaf "1.3.1" "endOfMib"; Sim.leaf "1.3.2" "b"] in
  fst (GetBulk (codec := Sim.codec) Sim.session 0 2 ["1.3"] w)
  = Ret (Some (Packet.mk 1 "" NoRequest 0 0 0 0 batch), None)
  /\ last_governs "1.3" batch = true
  /\ fst (BulkWalk (codec := Sim.codec) 5 Sim.session 2 "1.3" w)
     = Ret ([], None)
  /\ dispatched (snd (BulkWalk (codec := Sim.codec) 5 Sim.session 2 "1.3" w))
     = [bulk_request Sim.session 2 "1.3"].
Proof. vm_compute. repeat split. Qed.

Definition mib_two : list SnmpPDU :=
  [Sim.leaf "1.3.1" "a"; Sim.leaf "1.3.2" "b"].

(** C7 as stated fails.  The agent holds 1.3.1 and 1.3.2 and answers
    the second GetBulk request with no binding, which [sendPacket]
    turns into an error.  [BulkWalk] returns that error together with
    the two bindings of the first batch. *)
Lemma BulkWalk_error_with_first_batch :
  fst (BulkWalk (codec := Sim.codec) 5 Sim.session 2 "1.3"
         (Sim.world mib_two))
  = Ret ([Sim.leaf "1.3.1" "a"; Sim.leaf "1.3.2" "b"],
         Some "No responses received.").
Proof. vm_compute. reflexivity. Qed.

Definition mib_sentinel_inside : list SnmpPDU :=
  [Sim.leaf "1.3.1" "a"; Sim.leaf "1.3.2" "endOfMib"; Sim.leaf "1.3.3" "c";
   Sim.leaf "1.4.1" "d"].

(** C2 as stated fails.  Over one and the same agent, [Walk] returns
    the three bindings under 1.3 while [BulkWalk] stops at the value
    of 1.3.2 and returns one; and with zero repetitions per batch
    [BulkWalk] returns an error where [Walk] returns the subtree. *)
Lemma Walk_and_BulkWalk_differ :
  fst (Walk (codec := Sim.codec) 9 Sim.session "1.3"
         (Sim.world mib_sentinel_inside))
  <> fst (BulkWalk (codec := Sim.codec) 9 Sim.session 2 "1.3"
            (Sim.world mib_sentinel_inside))
  /\ (fst (Walk (codec := Sim.codec) 9 Sim.session "1.3"
          (Sim.world mib_sentinel_inside))
   = Ret ([Sim.leaf "1.3.1" "a"; Sim.leaf "1.3.2" "endOfMib";
           Sim.leaf "1.3.3" "c"], None)
   /\ fst (BulkWalk (codec := Sim.codec) 9 Sim.session 2 "1.3"
             (Sim.world mib_sentinel_inside))
      = Ret ([Sim.leaf "1.3.1" "a"], None))
  /\ (fst (Walk (codec := Sim.codec) 9 Sim.session "1.3"
             (Sim.world mib_small))
      = Ret ([Sim.leaf "1.3.1" "a"; Sim.leaf "1.3.2" "b"], None)
      /\ fst (BulkWalk (codec := Sim.codec) 9 Sim.session 0 "1.3"
                (Sim.world mib_small))
         = Ret ([], Some "No responses received.")).
Proof. vm_compute. repeat split. discriminate. Qed.

Definition world_two : World Sim.Agent := Sim.world mib_two.

Definition world_two_1 : World Sim.Agent :=
  snd (GetBulk (codec := Sim.codec) Sim.session 0 2 ["1.3"] world_two).

Definition world_two_2 : World Sim.Agent :=
  snd (GetBulk (codec := Sim.codec) Sim.session 0 2 ["1.3.2"] world_two_1).

Definition reply (vs : list SnmpPDU) : SnmpPacket :=
  Packet.mk 1 "" NoRequest 0 0 0 0 vs.

Lemma BulkWalk_dispatch_error_witness :
  BulkWalk (codec := Sim.codec) 2 Sim.session 2 "1.3" world_two
  = (Ret ([Sim.leaf "1.3.1" "a"; Sim.leaf "1.3.2" "b"],
          Some "No responses received."), world_two_2)
  /\ dispatched world_two_2
     = dispatched world_two_1 ++ [bulk_request Sim.session 2 "1.3.2"].
Proof.
  apply (@BulkWalk_dispatch_error Sim.Agent Sim.codec Sim.session 2 "1.3"
           world_two [Packet.Variables (reply mib_two)] "1.3.2" world_two_1
           None "No responses received." world_two_2 0).
  - discriminate.
  - apply (@run_batch Sim.Agent Sim.codec Sim.session 2 "1.3" "1.3" world_two
             (reply mib_two) world_two_1 (Sim.leaf "1.3.2" "b") []
             "1.3.2" world_two_1).
    + by_running.
    + reflexivity.
    + reflexivity.
    + reflexivity.
    + apply run_here.
  - by_running.
Defined.

Definition mib_deep : list SnmpPDU :=
  [Sim.leaf "1.3.1" "a"; Sim.leaf "1.3.2" "b"; Sim.leaf "1.3.3" "c";
   Sim.leaf "1.3.4" "d"; Sim.leaf "1.3.5" "endOfMib"; Sim.leaf "1.3.6" "f"].

Definition world_deep : World Sim.Agent := Sim.world mib_deep.

Definition world_deep_1 : World Sim.Agent :=
  snd (GetBulk (codec := Sim.codec) Sim.session 0 3 ["1.3"] world_deep).

Definition world_deep_2 : World Sim.Agent :=
  snd (GetBulk (codec := Sim.codec) Sim.session 0 3 ["1.3.3"] world_deep_1).

Lemma world_deep_first_batch :
  bulk_run (codec := Sim.codec) Sim.session 3 "1.3" "1.3" world_deep
           [Packet.Variables (reply (firstn 3 mib_deep))] "1.3.3" world_deep_1.
Proof.
  apply (@run_batch Sim.Agent Sim.codec Sim.session 3 "1.3" "1.3" world_deep
           (reply (firstn 3 mib_deep)) world_deep_1 (Sim.leaf "1.3.3" "c")
           [] "1.3.3" world_deep_1).
  - by_running.
  - reflexivity.
  - reflexivity.
  - reflexivity.
  - apply run_here.
Defined.

Lemma world_deep_second_batch :
  GetBulk (codec := Sim.codec) Sim.session 0 3 ["1.3.3"] world_deep_1
  = (Ret (Some (reply (skipn 3 mib_deep)), None), world_deep_2).
Proof. by_running. Defined.

Lemma bulk_walk_stops_at_sentinel_witness :
  let kept := [Sim.leaf "1.3.1" "a"; Sim.leaf "1.3.2" "b";
               Sim.leaf "1.3.3" "c"; Sim.leaf "1.3.4" "d"] in
  BulkWalk (codec := Sim.codec) 2 Sim.session 3 "1.3" world_deep
  = (Ret (kept, None), world_deep_2)
  /\ dispatched world_deep_2
     = dispatched world_deep_1 ++ [bulk_request Sim.session 3 "1.3.3"]
  /\ exists ws,
       StreamBulkWalk (codec := Sim.codec) 1 Sim.session 3 "1.3" 0 world_deep
       = (Ret None, ws)
       /\ chans ws 0%nat = chans world_deep 0%nat ++ map Send kept ++ [Close]
       /\ dispatched ws = dispatched world_deep_2.
Proof.
  exact (@bulk_walk_stops_at_sentinel Sim.Agent Sim.codec Sim.session 3 "1.3"
           0%nat world_deep [Packet.Variables (reply (firstn 3 mib_deep))]
           "1.3.3" world_deep_1 (reply (skipn 3 mib_deep)) world_deep_2
           [Sim.leaf "1.3.4" "d"] [Sim.leaf "1.3.6" "f"]
           (Sim.leaf "1.3.5" "endOfMib") 0%nat
           ltac:(discriminate) eq_refl world_deep_first_batch
           world_deep_second_batch eq_refl eq_refl eq_refl).
Defined.

Lemma world_two_first_batch :
  GetBulk (codec := Sim.codec) Sim.session 0 2 ["1.3"] world_two
  = (Ret (Some (reply mib_two), None), world_two_1).
Proof. by_running. Defined.

Lemma bulk_batch_recursion_witness :
  recurses "1.3" mib_two = true <->
  exists l more, last_pdu mib_two = Some l
    /\ dispatched (snd (_bulkWalk (codec := Sim.codec) 2 Sim.session 2
                          "1.3" "1.3" world_two))
       = dispatched world_two_1 ++ bulk_request Sim.session 2 (Name l) :: more.
Proof.
  exact (proj1 (@bulk_batch_recursion Sim.Agent Sim.codec 0 Sim.session 2
                  "1.3" "1.3" world_two (reply mib_two) world_two_1
                  world_two_first_batch)).
Defined.

Definition world_small_streamed : World Sim.Agent :=
  snd (StreamWalk (codec := Sim.codec) 5 Sim.session "1.3" 0
         (Sim.world mib_small)).

Lemma world_small_stream :
  StreamWalk (codec := Sim.codec) 5 Sim.session "1.3" 0 (Sim.world mib_small)
  = (Ret None, world_small_streamed).
Proof. by_running. Defined.

Lemma stream_closed_exactly_once_witness :
  (exists vs, chans world_small_streamed 0%nat
              = chans (Sim.world mib_small) 0%nat ++ map Send vs ++ [Close])
  /\ List.length (filter is_Close (chans world_small_streamed 0%nat)) = 1%nat.
Proof.
  exact (@stream_closed_exactly_once Sim.Agent Sim.codec 5 Sim.session 2
           "1.3" 0%nat (Sim.world mib_small) None world_small_streamed
           eq_refl (or_introl world_small_stream)).
Defined.

Definition world_sentinel_first : World Sim.Agent :=
  Sim.world mib_sentinel_first.

Definition world_sentinel_first_1 : World Sim.Agent :=
  snd (GetNext (codec := Sim.codec) Sim.session "1.3" world_sentinel_first).

Lemma world_sentinel_first_next :
  GetNext (codec := Sim.codec) Sim.session "1.3" world_sentinel_first
  = (Ret (Some (reply [Sim.leaf "1.3.1" "endOfMib"]), None),
     world_sentinel_first_1).
Proof. by_running. Defined.

Lemma sequential_walk_ignores_sentinel_witness :
  Walk_loop (codec := Sim.codec) 3 Sim.session "1.3" "1.3" []
            world_sentinel_first
  = Walk_loop (codec := Sim.codec) 2 Sim.session "1.3" "1.3.1"
              ([] ++ [Sim.leaf "1.3.1" "endOfMib"]) world_sentinel_first_1.
Proof.
  exact (proj1 (@sequential_walk_ignores_sentinel Sim.Agent Sim.codec 2
                  Sim.session "1.3" "1.3" 0%nat world_sentinel_first
                  (reply [Sim.leaf "1.3.1" "endOfMib"]) world_sentinel_first_1
                  (Sim.leaf "1.3.1" "endOfMib") [] []
                  world_sentinel_first_next eq_refl eq_refl eq_refl)).
Defined.

Definition mib_subtree : list SnmpPDU :=
  [Sim.leaf "1.3.1" "a"; Sim.leaf "1.3.2" "b"; Sim.leaf "1.3.3" "c";
   Sim.leaf "1.4.1" "d"; Sim.leaf "1.4.2" "e"].

(** The agent serves [mib_subtree] whatever datagram it still holds. *)
Definition serving_subtree (w : World Sim.Agent) : Prop :=
  Sim.mib (net w) = mib_subtree.

(** The tree order of [mib_subtree] seen from the OIDs a walk rooted
    at 1.3 asks about. *)
Definition after_subtree (oid : string) : list SnmpPDU :=
  if String.eqb oid "1.3" then mib_subtree
  else if String.eqb oid "1.3.1" then skipn 1 mib_subtree
  else if String.eqb oid "1.3.2" then skipn 2 mib_subtree
  else if String.eqb oid "1.3.3" then skipn 3 mib_subtree
  else [].

Ltac known_oid oid :=
  unfold after_subtree in *;
  repeat match goal with
         | H : context [String.eqb oid ?k] |- _ =>
             destruct (String.eqb_spec oid k) as [->|_]
         | |- context [String.eqb oid ?k] =>
             destruct (String.eqb_spec oid k) as [->|_]
         end.

Ltac open_world w H :=
  destruct w as [[m i] cl d wr ch];
  unfold serving_subtree in H; simpl in H; subst m.

Lemma subtree_agent_next (oid : string) (w : World Sim.Agent) :
  serving_subtree w -> after_subtree oid <> [] ->
  exists p w', GetNext (codec := Sim.codec) Sim.session oid w
               = (Ret (Some p, None), w')
    /\ hd_error (Packet.Variables p) = hd_error (after_subtree oid)
    /\ serving_subtree w'.
Proof.
  intros Hw Hne. open_world w Hw.
  known_oid oid; try contradiction;
    match goal with
    | |- exists p w', ?run = _ /\ _ = hd_error ?l /\ _ =>
        exists (reply (firstn 1 l)), (snd run);
        split; [by_running | split; vm_compute; reflexivity]
    end.
Qed.

Lemma subtree_agent_bulk (oid : string) (w : World Sim.Agent) :
  serving_subtree w -> after_subtree oid <> [] ->
  exists p w', GetBulk (codec := Sim.codec) Sim.session 0 2 [oid] w
               = (Ret (Some p, None), w')
    /\ Packet.Variables p = firstn (Z.to_nat 2) (after_subtree oid)
    /\ serving_subtree w'.
Proof.
  intros Hw Hne. open_world w Hw.
  known_oid oid; try contradiction;
    match goal with
    | |- exists p w', ?run = _ /\ _ = firstn _ ?l /\ _ =>
        exists (reply (firstn 2 l)), (snd run);
        split; [by_running | split; vm_compute; reflexivity]
    end.
Qed.

Lemma subtree_after_inside (a : list SnmpPDU) (v : SnmpPDU) (b : list SnmpPDU) :
  firstn 3 mib_subtree = a ++ v :: b ->
  after_subtree (Name v) = b ++ Sim.leaf "1.4.1" "d" :: [Sim.leaf "1.4.2" "e"].
Proof.
  intros H.
  destruct a as [|a0 [|a1 [|a2 [|a3 a]]]]; simpl in H; inversion H; subst;
    reflexivity.
Qed.

Lemma subtree_in_range (v : SnmpPDU) :
  In v (firstn 3 mib_subtree) -> in_range "1.3" v = true.
Proof.
  simpl. intros [<-|[<-|[<-|[]]]]; reflexivity.
Qed.

Lemma subtree_beyond (v : SnmpPDU) :
  In v [Sim.leaf "1.4.2" "e"] -> in_range "1.3" v = false.
Proof.
  simpl. intros [<-|[]]; reflexivity.
Qed.

Lemma subtree_plain (v : SnmpPDU) :
  In v (firstn 3 mib_subtree ++ Sim.leaf "1.4.1" "d" :: [Sim.leaf "1.4.2" "e"])
  -> is_endOfMib v = false.
Proof.
  simpl. intros [<-|[<-|[<-|[<-|[<-|[]]]]]]; reflexivity.
Qed.

Lemma Walk_BulkWalk_agree_witness :
  exists w1 w2,
    Walk (codec := Sim.codec) 4 Sim.session "1.3" (Sim.world mib_subtree)
    = (Ret (firstn 3 mib_subtree, None), w1)
    /\ BulkWalk (codec := Sim.codec) 4 Sim.session 2 "1.3"
                (Sim.world mib_subtree)
       = (Ret (firstn 3 mib_subtree, None), w2).
Proof.
  exact (@Walk_BulkWalk_agree Sim.Agent Sim.codec Sim.session 2 "1.3"
           serving_subtree after_subtree (firstn 3 mib_subtree)
           (Sim.leaf "1.4.1" "d") [Sim.leaf "1.4.2" "e"]
           ltac:(discriminate) ltac:(lia) eq_refl subtree_after_inside
           subtree_in_range eq_refl subtree_beyond subtree_plain
           subtree_agent_next subtree_agent_bulk
           (Sim.world mib_subtree) 4%nat eq_refl ltac:(simpl; lia)).
Defined.

(** ** Further properties of the dispatch boundary *)

Section DispatchProperties.
Context {NetState : Type} {codec : Codec}.
Implicit Types (x : Conn NetState) (w : World NetState).

Unset Implicit Arguments.

(** [yields P m]: every value that [m] returns satisfies [P]. *)
Definition yields {A} (P : A -> Prop) (m : M (NetState := NetState) A) : Prop :=
  forall w r w', m w = (Ret r, w') -> P r.

Lemma yields_ret {A} (P : A -> Prop) (a : A) : P a -> yields P (ret a).
Proof. intros H w r w' E. inversion E; subst. exact H. Qed.

Lemma yields_bind {A B} (P : B -> Prop) (m : M A) (f : A -> M B) :
  (forall a, yields P (f a)) -> yields P (bind m f).
Proof.
  intros Hf w r w' E. unfold bind in E.
  destruct (m w) as [[a|e|] w1]; try discriminate.
  exact (Hf a _ _ _ E).
Qed.



(** What [sendPacket] may return: a response that carries a variable,
    with a nil error, or a nil response with an error. *)
Definition well_formed_result (r : option SnmpPacket * option error) : Prop :=
  (exists pdu, r = (Some pdu, None)
               /\ (1 <= List.length (Packet.Variables pdu))%nat)
  \/ (exists e, r = (None, Some e)).

(** X1.  Whenever [sendPacket] returns, it returns either a response
    with at least one variable and a nil error, or a nil response and
    an error: never both, never neither. *)
Theorem sendPacket_response_or_error x (p : SnmpPacket) w r w' :
  sendPacket x p w = (Ret r, w') -> well_formed_result r.
Proof.
  revert w r w'. change (yields well_formed_result (sendPacket x p)).
  unfold sendPacket.
  do 5 (apply yields_bind; intros ?).
  assert (Err : forall e, yields well_formed_result
                            (ret (A := option SnmpPacket * option error)
                                 (None, Some e))).
  { intros e. apply yields_ret. right. exists e. reflexivity. }
  destruct (snd a3); [apply Err|].
  do 2 (apply yields_bind; intros ?).
  destruct (snd a5); [apply Err|].
  apply yields_bind; intros rd.
  destruct (snd rd); [apply Err|].
  apply yields_bind; intros u.
  destruct (snd u); [apply Err|].
  apply yields_bind; intros pdu.
  destruct (Z.of_nat (List.length (Packet.Variables pdu)) <? 1) eqn:E;
    [apply Err|].
  apply yields_ret. left. exists pdu. split; [reflexivity|].
  apply Z.ltb_ge in E. lia.
Qed.


(** X3.  No fault leaves a single-shot operation: whatever the
    connection and the codec do, [Get], [GetNext], [GetBulk] and
    [GetMulti] never panic. *)
Theorem single_shot_never_panics x (oid : string) (oids : list string)
  (nonRepeaters maxRepetitions : Z) w (msg : string) :
  fst (Get x oid w) <> Panic msg
  /\ fst (GetNext x oid w) <> Panic msg
  /\ fst (GetBulk x nonRepeaters maxRepetitions oids w) <> Panic msg
  /\ fst (GetMulti x oids w) <> Panic msg.
Proof.
  assert (T : forall r : outcome (option SnmpPacket * option error)
                         * World NetState,
            fst (through_recover r) <> Panic msg).
  { intros [[a|e|] w1]; simpl; discriminate. }
  rewrite Get_eq, GetNext_eq, GetBulk_eq, GetMulti_eq. repeat split; apply T.
Qed.


(** X5.  [Get] of one OID and [GetMulti] of the list holding that OID
    are the same request: they dispatch the same packet and return
    the same result. *)
Theorem Get_is_GetMulti_of_one x (oid : string) w :
  Get x oid w = GetMulti x [oid] w.
Proof. rewrite Get_eq, GetMulti_eq. reflexivity. Qed.

End DispatchProperties.

(** ** Further properties of the walks *)

(** [next_run x root s w vs s' w']: from cursor [s] in world [w] the
    agent answers [length vs] successive GetNext requests, the first
    binding of each answer holding the root, so that the sequential
    walk has gathered [vs] and stands at cursor [s'] in world [w']. *)
Inductive next_run {NetState} {codec : Codec} (x : Conn NetState)
  (root : string)
  : string -> World NetState -> list SnmpPDU -> string -> World NetState ->
    Prop :=
| next_here : forall s w, next_run x root s w [] s w
| next_step : forall s w p w1 v rest vs s' w',
    GetNext x s w = (Ret (Some p, None), w1) ->
    Packet.Variables p = v :: rest ->
    contains_root root v = true ->
    next_run x root (Name v) w1 vs s' w' ->
    next_run x root s w (v :: vs) s' w'.

Section WalkProperties.
Context {NetState : Type} {codec : Codec}.
Implicit Types (x : Conn NetState) (w : World NetState).

Unset Implicit Arguments.

(** *** What is written to the connection *)

Definition keeps_written {A} (m : M (NetState := NetState) A) : Prop :=
  forall w o w', m w = (o, w') -> written w' = written w.

Lemma keeps_written_bind {A B} (m : M A) (f : A -> M B) :
  keeps_written m -> (forall a, keeps_written (f a)) ->
  keeps_written (bind m f).
Proof.
  intros Hm Hf w o w' H. unfold bind in H.
  destruct (m w) as [[a|e|] w1] eqn:E.
  - rewrite (Hf a _ _ _ H). exact (Hm _ _ _ E).
  - inversion H; subst. exact (Hm _ _ _ E).
  - inversion H; subst. exact (Hm _ _ _ E).
Qed.

Lemma keeps_written_ret {A} (a : A) : keeps_written (ret a).
Proof. intros w o w' H. inversion H. reflexivity. Qed.

Lemma keeps_written_deref {A} (p : option A) : keeps_written (deref p).
Proof. intros w o w' H. destruct p; inversion H; reflexivity. Qed.

Lemma keeps_written_call {A} (c : outcome A) : keeps_written (call c).
Proof. intros w o w' H. inversion H. reflexivity. Qed.

Lemma keeps_written_on_net {A} (f : NetState -> A * NetState) :
  keeps_written (on_net f).
Proof.
  intros w o w' H. unfold on_net in H. destruct (f (net w)).
  inversion H. reflexivity.
Qed.

(** The write of one marshalled request, at most. *)
Definition writes_request_once {A} (p : SnmpPacket)
  (m : M (NetState := NetState) A) : Prop :=
  forall w o w', m w = (o, w') ->
    written w' = written w
    \/ exists buf, marshal p = Ret (buf, None)
                   /\ written w' = written w ++ [buf].

Lemma writes_once_after {A B} (p : SnmpPacket) (m : M A) (f : A -> M B) :
  keeps_written m -> (forall a, writes_request_once p (f a)) ->
  writes_request_once p (bind m f).
Proof.
  intros Hm Hf w o w' H. unfold bind in H.
  destruct (m w) as [[a|e|] w1] eqn:E.
  - rewrite <- (Hm _ _ _ E). exact (Hf a _ _ _ H).
  - inversion H; subst. left. exact (Hm _ _ _ E).
  - inversion H; subst. left. exact (Hm _ _ _ E).
Qed.

(** X6.  One call of [sendPacket] writes at most one buffer to the
    connection, and that buffer is the marshalled packet: there is no
    retransmission.  When marshalling fails, the marshal error is
    returned as it is and nothing is written. *)
Theorem sendPacket_writes_at_most_once x (p : SnmpPacket) w o w' :
  sendPacket x p w = (o, w') ->
  (written w' = written w
   \/ exists buf, marshal p = Ret (buf, None)
                  /\ written w' = written w ++ [buf])
  /\ (forall buf err, marshal p = Ret (buf, Some err) -> conn x <> None ->
        o = Ret (None, Some err) /\ written w' = written w).
Proof.
  intros H. split.
  - revert w o w' H. change (writes_request_once p (sendPacket x p)).
    unfold sendPacket.
    apply writes_once_after;
      [intros w o w' H; inversion H; reflexivity | intros _].
    apply writes_once_after;
      [intros w o w' H; inversion H; reflexivity | intros deadline].
    apply writes_once_after; [apply keeps_written_deref | intros c].
    apply writes_once_after; [apply keeps_written_on_net | intros _].
    intros w o w' H. unfold bind at 1, call in H.
    destruct (marshal p) as [[buf err]|e|] eqn:Em;
      [|inversion H; left; reflexivity..].
    simpl in H. destruct err as [err|].
    { inversion H. left. reflexivity. }
    right. exists buf. split; [reflexivity|].
    unfold bind at 1, log_written in H. cbv beta iota in H.
    match type of H with
    | ?m ?w0 = _ => assert (K : keeps_written m)
    end.
    { apply keeps_written_bind; [apply keeps_written_on_net | intros wr].
      destruct (snd wr); [apply keeps_written_ret|].
      apply keeps_written_bind; [apply keeps_written_on_net | intros rd].
      destruct (snd rd); [apply keeps_written_ret|].
      apply keeps_written_bind; [apply keeps_written_call | intros u].
      destruct (snd u); [apply keeps_written_ret|].
      apply keeps_written_bind; [apply keeps_written_deref | intros pdu].
      destruct (_ <? 1); apply keeps_written_ret. }
    rewrite (K _ _ _ H). reflexivity.
  - intros buf err Hm Hc.
    destruct (conn x) as [c|] eqn:Ec; [|contradiction].
    unfold sendPacket, bind, log_dispatched, time_Now, deref, on_net, call,
      ret in H.
    rewrite Ec, Hm in H. cbv beta iota in H.
    destruct (SetDeadline c _ _) as [d n]. cbv beta iota in H.
    simpl in H. inversion H. split; reflexivity.
Qed.

(** *** The sequential walk, from request to request *)

Lemma next_run_walk x (root s : string) w vs s' w' :
  next_run x root s w vs s' w' ->
  forall f results,
    Walk_loop (f + List.length vs) x root s results w
    = Walk_loop f x root s' (results ++ vs) w'.
Proof.
  induction 1 as [s w | s w p w1 v rest vs s' w' HG Hvs Hin Hrun IH];
    intros f results.
  - rewrite Nat.add_0_r, app_nil_r. reflexivity.
  - cbn [List.length]. rewrite Nat.add_succ_r.
    rewrite Walk_loop_unfold, HG, Hvs, Hin, IH, <- app_assoc. reflexivity.
Qed.

Lemma next_run_requests x (root s : string) w vs s' w' :
  next_run x root s w vs s' w' ->
  dispatched w' ++ [GetNext_packet x s']
  = dispatched w ++ map (GetNext_packet x) (s :: map Name vs).
Proof.
  induction 1 as [s w | s w p w1 v rest vs s' w' HG Hvs Hin Hrun IH].
  - reflexivity.
  - rewrite IH. destruct (GetNext_frame _ _ _ HG) as [D _].
    rewrite D, <- app_assoc. reflexivity.
Qed.

Lemma Walk_nonempty (f : nat) x (root : string) :
  root <> "" -> Walk f x root = Walk_loop f x root root [].
Proof.
  intros H. unfold Walk.
  destruct (String.eqb_spec root ""); [contradiction | reflexivity].
Qed.

(** X7.  The sequential walk stops at the first binding whose Name
    does not hold the root: it returns, without error, the bindings
    gathered before it, in the order received, having dispatched one
    GetNext request for the root and one for the Name of each binding
    returned, in that order. *)
Theorem Walk_returns_run_before_boundary x (root : string) w vs s' w' p w''
  (v : SnmpPDU) (rest : list SnmpPDU) (k : nat) :
  root <> "" ->
  next_run x root root w vs s' w' ->
  GetNext x s' w' = (Ret (Some p, None), w'') ->
  Packet.Variables p = v :: rest ->
  contains_root root v = false ->
  Walk (S k + List.length vs) x root w = (Ret (vs, None), w'')
  /\ dispatched w''
     = dispatched w ++ map (GetNext_packet x) (root :: map Name vs).
Proof.
  intros Hroot Hrun HG Hvs Hout. split.
  - rewrite (Walk_nonempty _ _ _ Hroot), (next_run_walk _ _ _ _ _ _ _ Hrun).
    rewrite Walk_loop_unfold, HG, Hvs, Hout. reflexivity.
  - destruct (GetNext_frame _ _ _ HG) as [D _].
    rewrite D. exact (next_run_requests _ _ _ _ _ _ _ Hrun).
Qed.

(** X8.  On a dispatch error the sequential walk returns the error
    together with every binding gathered before it (where the bulk
    walk keeps its first batch only). *)
Theorem Walk_dispatch_error_keeps_results x (root : string) w vs s' w'
  (o : option SnmpPacket) (e : error) w'' (k : nat) :
  root <> "" ->
  next_run x root root w vs s' w' ->
  GetNext x s' w' = (Ret (o, Some e), w'') ->
  Walk (S k + List.length vs) x root w = (Ret (vs, Some e), w'').
Proof.
  intros Hroot Hrun HG.
  rewrite (Walk_nonempty _ _ _ Hroot), (next_run_walk _ _ _ _ _ _ _ Hrun).
  rewrite Walk_loop_unfold, HG. destruct o; reflexivity.
Qed.

(** X9.  A fault recovered inside [GetNext] (nil response, nil error)
    ends the sequential walk as a subtree boundary does: the bindings
    gathered so far are returned with a nil error, so the caller
    cannot tell the truncated walk from a complete one. *)
Theorem Walk_fault_ends_walk_silently x (root : string) w vs s' w' w''
  (k : nat) :
  root <> "" ->
  next_run x root root w vs s' w' ->
  GetNext x s' w' = (Ret (None, None), w'') ->
  Walk (S k + List.length vs) x root w = (Ret (vs, None), w'').
Proof.
  intros Hroot Hrun HG.
  rewrite (Walk_nonempty _ _ _ Hroot), (next_run_walk _ _ _ _ _ _ _ Hrun).
  rewrite Walk_loop_unfold, HG. reflexivity.
Qed.

Lemma Walk_loop_contains x (root : string) (fuel : nat) :
  forall oid results w res e w',
    (forall v, In v results -> contains_root root v = true) ->
    Walk_loop fuel x root oid results w = (Ret (res, e), w') ->
    forall v, In v res -> contains_root root v = true.
Proof.
  induction fuel as [|fuel IH]; intros oid results w res e w' Hres H.
  - discriminate.
  - rewrite Walk_loop_unfold in H.
    destruct (GetNext x oid w) as [[[[p|] [err|]]|m|] w1];
      try discriminate;
      try (inversion H; subst; exact Hres).
    destruct (Packet.Variables p) as [|v0 ?];
      [inversion H; subst; exact Hres|].
    destruct (contains_root root v0) eqn:E;
      [|inversion H; subst; exact Hres].
    refine (IH _ _ _ _ _ _ _ H).
    intros v Hv. apply in_app_or in Hv. destruct Hv as [Hv|[<-|[]]];
      [exact (Hres v Hv) | exact E].
Qed.

(** X10.  Every binding that [Walk] returns holds the root somewhere
    in its Name. *)
Theorem Walk_results_contain_root (fuel : nat) x (root : string) w
  (res : list SnmpPDU) (e : option error) w' :
  Walk fuel x root w = (Ret (res, e), w') ->
  forall v, In v res -> contains_root root v = true.
Proof.
  unfold Walk. destruct (String.eqb root "").
  - intros H. inversion H. intros v [].
  - apply Walk_loop_contains. intros v [].
Qed.

End WalkProperties.

(** ** Further properties of the streaming walks *)

Section StreamProperties.
Context {NetState : Type} {codec : Codec}.
Implicit Types (x : Conn NetState) (w : World NetState).

Unset Implicit Arguments.

Lemma blind_GetNext x (oid : string) : blind (GetNext x oid).
Proof.
  unfold GetNext. apply blind_bind; [|intros r; apply blind_ret].
  apply blind_recovering, blind_sendPacket.
Qed.

(** The loop of [StreamWalk] against the loop of [Walk], run from
    worlds that differ in their channels only. *)
Lemma StreamWalk_loop_follows x (root : string) (c : nat)
  (old : list ChanEvent) :
  closed old = false ->
  forall (fuel : nat) oid results sent ch w res e w',
    ch c = old ++ map Send sent ->
    Walk_loop fuel x root oid results w = (Ret (res, e), w') ->
    exists new ch',
      res = results ++ new
      /\ StreamWalk_loop fuel x root oid c (with_chans ch w)
         = (Ret e, with_chans ch' w')
      /\ ch' c = old ++ map Send (sent ++ new) ++ [Close].
Proof.
  intros Hold. induction fuel as [|fuel IH];
    intros oid results sent ch w res e w' Hc H.
  - discriminate.
  - rewrite Walk_loop_unfold in H. cbn [StreamWalk_loop].
    unfold bind at 1. rewrite (blind_GetNext x oid ch w).
    assert (Stop : forall r w1,
              (Ret (results, r), w1) = (Ret (res, e), w') ->
              exists new ch',
                res = results ++ new
                /\ (chan_close c ;;; ret r) (with_chans ch w1)
                   = (Ret e, with_chans ch' w')
                /\ ch' c = old ++ map Send (sent ++ new) ++ [Close]).
    { intros r w1 E. inversion E; subst.
      destruct (close_ret_open c e ch w' sent old Hold Hc) as [ch' [E1 C]].
      exists [], ch'. rewrite !app_nil_r. auto. }
    destruct (GetNext x oid w) as [[[[p|] [err|]]|m|] w1]; simpl;
      try discriminate; try (exact (Stop _ _ H)).
    destruct (Packet.Variables p) as [|v0 ?]; [exact (Stop _ _ H)|].
    unfold contains_root in H.
    destruct (strings_Index (Name v0) root >? -1); [|exact (Stop _ _ H)].
    assert (Hopen : closed (ch c) = false)
      by (rewrite Hc, closed_app, Hold, closed_sends; reflexivity).
    unfold bind at 1. rewrite (chan_send_open _ _ _ _ Hopen).
    destruct (IH (Name v0) (results ++ [v0]) (sent ++ [v0])
                 (fun k => if Nat.eqb k c then ch c ++ [Send v0] else ch k)
                 w1 res e w') as [new [ch' [E1 [E2 C]]]].
    + rewrite Nat.eqb_refl, Hc, map_app, <- app_assoc. reflexivity.
    + exact H.
    + exists (v0 :: new), ch'. split; [|split; [exact E2|]].
      * rewrite E1, <- app_assoc. reflexivity.
      * rewrite C, <- app_assoc. reflexivity.
Qed.

(** X11.  [StreamWalk] is [Walk] delivered through the channel:
    wherever [Walk] returns results and an error value, [StreamWalk]
    sends exactly those results in the same order, closes the
    channel, and returns the same error value, having dispatched the
    same requests and left the agent in the same state. *)
Theorem StreamWalk_sends_what_Walk_returns (fuel : nat) x (oid : string)
  (c : nat) w (res : list SnmpPDU) (e : option error) w' :
  closed (chans w c) = false ->
  Walk fuel x oid w = (Ret (res, e), w') ->
  exists ws, StreamWalk fuel x oid c w = (Ret e, ws)
    /\ chans ws c = chans w c ++ map Send res ++ [Close]
    /\ dispatched ws = dispatched w'
    /\ net ws = net w'.
Proof.
  intros Ho H. unfold Walk in H. unfold StreamWalk.
  destruct (String.eqb oid "").
  - injection H as <- <- <-.
    destruct (close_ret_open c (Some ("No OID given" ++ nl)%string)
                (chans w) w [] (chans w c) Ho) as [ch' [E C]].
    { rewrite app_nil_r. reflexivity. }
    rewrite with_chans_same in E.
    exists (with_chans ch' w). split; [exact E | auto].
  - destruct (StreamWalk_loop_follows x oid c (chans w c) Ho fuel oid []
                [] (chans w) w res e w') as [new [ch' [E1 [E2 C]]]].
    + rewrite app_nil_r. reflexivity.
    + exact H.
    + rewrite with_chans_same in E2. rewrite E2. simpl in E1. subst new.
      exists (with_chans ch' w'). auto.
Qed.

(** X12.  [StreamBulkWalk] is the blocking bulk walk delivered through
    the channel, errors included: wherever [_bulkWalk] started at the
    root returns results and an error value, [StreamBulkWalk] (one
    unit of fuel less, its first batch being its own) sends exactly
    those results, closes the channel and returns the same error
    value, having dispatched the same requests. *)
Theorem StreamBulkWalk_sends_what_bulk_walk_returns (f : nat) x (mr : Z)
  (oid : string) (c : nat) w (res : list SnmpPDU) (e : option error) w' :
  closed (chans w c) = false ->
  _bulkWalk (S f) x mr oid oid w = (Ret (res, e), w') ->
  exists ws, StreamBulkWalk f x mr oid c w = (Ret e, ws)
    /\ chans ws c = chans w c ++ map Send res ++ [Close]
    /\ dispatched ws = dispatched w'
    /\ net ws = net w'.
Proof.
  intros Ho H. rewrite bulkWalk_unfold in H. unfold StreamBulkWalk, bind.
  destruct (GetBulk x 0 mr [oid] w) as [[[r [err|]]|m|] w1] eqn:HG;
    try discriminate;
    destruct (GetBulk_frame _ _ _ _ HG) as [_ C1].
  - assert (H' : (Ret (@nil SnmpPDU, Some err), w1) = (Ret (res, e), w'))
      by (destruct r; exact H).
    injection H' as <- <- <-. simpl.
    destruct (close_ret_open c (Some err) (chans w1) w1 [] (chans w c) Ho)
      as [ch' [E C]].
    { rewrite C1, app_nil_r. reflexivity. }
    rewrite with_chans_same in E.
    exists (with_chans ch' w1). split; [exact E | auto].
  - destruct r as [p|]; [|discriminate]. simpl.
    destruct (stream_range_follows
                (fun s => _bulkWalk f x mr s oid) oid c
                (List.length (Packet.Variables p)) (chans w c)
                (Packet.Variables p)
                (blind_bulkWalk x mr oid f) Ho
                0%nat [] [] (chans w1) w1 res e w')
      as [new [ch' [E1 [E2 C]]]].
    + rewrite C1, app_nil_r. reflexivity.
    + exact H.
    + rewrite with_chans_same in E2. rewrite E2.
      exists (with_chans ch' w'). simpl in E1. subst new. auto.
Qed.

End StreamProperties.

(** ** Invariants of the bulk walk *)

Section BulkProperties.
Context {NetState : Type} {codec : Codec}.
Implicit Types (x : Conn NetState) (w : World NetState).

Unset Implicit Arguments.

(** Every binding of [res] is in range and none carries the sentinel. *)
Definition kept_in_range (root : string) (res : list SnmpPDU) : Prop :=
  forall v, In v res -> in_range root v = true /\ is_endOfMib v = false.

Lemma kept_in_range_app (root : string) (a b : list SnmpPDU) :
  kept_in_range root a -> kept_in_range root b -> kept_in_range root (a ++ b).
Proof.
  intros Ha Hb v Hv. apply in_app_or in Hv. destruct Hv; auto.
Qed.

Lemma bulk_range_kept
  (rec : string -> M (NetState := NetState) (list SnmpPDU * option error))
  (root : string) (len : nat) (vs : list SnmpPDU) :
  (forall s, yields (fun r => kept_in_range root (fst r)) (rec s)) ->
  forall i results,
    kept_in_range root results ->
    yields (fun r => kept_in_range root (fst r))
           (bulk_range rec root len i vs results).
Proof.
  intros Hrec. induction vs as [|v rest IH]; intros i results Hres.
  - apply yields_ret. exact Hres.
  - cbn [bulk_range].
    destruct (is_endOfMib v) eqn:Hs; [apply yields_ret; exact Hres|].
    destruct (strings_HasPrefix (Name v) root) eqn:Hin; [|apply IH, Hres].
    assert (Hres' : kept_in_range root (results ++ [v])).
    { apply kept_in_range_app; [exact Hres|].
      intros u [<-|[]]. split; [exact Hin | exact Hs]. }
    destruct (Z.of_nat i =? Z.of_nat len - 1); [|apply IH, Hres'].
    intros w r w' H. unfold bind in H.
    destruct (rec (Name v) w) as [[[sub [e|]]|m|] w1] eqn:E;
      try discriminate; simpl in H.
    + inversion H; subst. exact Hres'.
    + refine (IH _ _ _ _ _ _ H). apply kept_in_range_app; [exact Hres'|].
      exact (Hrec _ _ _ _ E).
Qed.

Lemma bulkWalk_kept x (mr : Z) (root : string) (f : nat) :
  forall s, yields (fun r => kept_in_range root (fst r))
                   (_bulkWalk f x mr s root).
Proof.
  induction f as [|f IH]; intros s.
  - intros w r w' H. discriminate.
  - cbn [_bulkWalk]. apply yields_bind. intros [r [e|]]; simpl.
    + apply yields_ret. intros v [].
    + apply yields_bind. intros p.
      apply bulk_range_kept; [exact IH | intros v []].
Qed.

(** X13.  Every binding that the bulk walk returns, with or without
    an error, has a Name that begins with the root and a value that is
    not the sentinel. *)
Theorem BulkWalk_results_in_range (fuel : nat) x (mr : Z) (root : string) w
  (res : list SnmpPDU) (e : option error) w' :
  BulkWalk fuel x mr root w = (Ret (res, e), w') ->
  forall v, In v res ->
    strings_HasPrefix (Name v) root = true /\ is_endOfMib v = false.
Proof.
  unfold BulkWalk. destruct (String.eqb root "").
  - intros H. inversion H. intros v [].
  - intros H. exact (bulkWalk_kept x mr root fuel root w _ w' H).
Qed.

(** The requests a computation adds are GetBulk requests of the walk
    ([nonRepeaters] 0, the walk's [maxRepetitions], one seed each),
    every seed beginning with the root. *)
Definition asks_in_range x (mr : Z) (root : string) {A}
  (m : M (NetState := NetState) A) : Prop :=
  forall w o w', m w = (o, w') ->
    exists seeds,
      dispatched w' = dispatched w ++ map (bulk_request x mr) seeds
      /\ Forall (fun s => strings_HasPrefix s root = true) seeds.

Lemma asks_ret x (mr : Z) (root : string) {A} (a : A) :
  asks_in_range x mr root (ret a).
Proof.
  intros w o w' H. inversion H; subst. exists [].
  rewrite app_nil_r. auto.
Qed.

Lemma asks_quiet x (mr : Z) (root : string) {A} (m : M A) :
  quiet m -> asks_in_range x mr root m.
Proof.
  intros Q w o w' H. destruct (Q _ _ _ H) as [D _]. exists [].
  rewrite app_nil_r. auto.
Qed.

Lemma asks_bind x (mr : Z) (root : string) {A B} (m : M A) (f : A -> M B) :
  asks_in_range x mr root m -> (forall a, asks_in_range x mr root (f a)) ->
  asks_in_range x mr root (bind m f).
Proof.
  intros Hm Hf w o w' H. unfold bind in H.
  destruct (m w) as [[a|e|] w1] eqn:E.
  - destruct (Hm _ _ _ E) as [s1 [D1 F1]].
    destruct (Hf a _ _ _ H) as [s2 [D2 F2]].
    exists (s1 ++ s2). split; [|apply Forall_app; auto].
    rewrite D2, D1, map_app, app_assoc. reflexivity.
  - inversion H; subst. exact (Hm _ _ _ E).
  - inversion H; subst. exact (Hm _ _ _ E).
Qed.

Lemma asks_bulk_range x (mr : Z)
  (rec : string -> M (NetState := NetState) (list SnmpPDU * option error))
  (root : string) (len : nat) (vs : list SnmpPDU) :
  (forall s, strings_HasPrefix s root = true ->
             asks_in_range x mr root (rec s)) ->
  forall i results,
    asks_in_range x mr root (bulk_range rec root len i vs results).
Proof.
  intros Hrec. induction vs as [|v rest IH]; intros i results.
  - apply asks_ret.
  - cbn [bulk_range].
    destruct (is_endOfMib v); [apply asks_ret|].
    destruct (strings_HasPrefix (Name v) root) eqn:Hin; [|apply IH].
    destruct (Z.of_nat i =? Z.of_nat len - 1); [|apply IH].
    apply asks_bind; [apply Hrec, Hin|].
    intros [sub [e|]]; simpl; [apply asks_ret | apply IH].
Qed.

Lemma asks_bulkWalk x (mr : Z) (root : string) (f : nat) :
  forall s, strings_HasPrefix s root = true ->
            asks_in_range x mr root (_bulkWalk f x mr s root).
Proof.
  induction f as [|f IH]; intros s Hs.
  - intros w o w' H. inversion H; subst. exists [].
    rewrite app_nil_r. auto.
  - cbn [_bulkWalk]. apply asks_bind.
    + intros w o w' H. destruct (GetBulk_frame _ _ _ _ H) as [D _].
      exists [s]. split; [exact D | constructor; [exact Hs | constructor]].
    + intros [r [e|]]; simpl; [apply asks_ret|].
      apply asks_bind; [apply asks_quiet, quiet_deref|].
      intros p. apply asks_bulk_range. exact IH.
Qed.

Lemma prefix_refl (s : string) : String.prefix s s = true.
Proof.
  induction s as [|a s IH]; [reflexivity|].
  simpl. destruct (ascii_dec a a); [exact IH | contradiction].
Qed.

(** X14.  Whatever becomes of a bulk walk (it returns, panics or is
    still running), every request it has dispatched is a GetBulk
    request with zero non-repeaters, the caller's maxRepetitions and a
    single seed that begins with the root: the walk never asks about
    an OID outside the subtree. *)
Theorem BulkWalk_requests_stay_in_subtree (fuel : nat) x (mr : Z)
  (root : string) w o w' :
  BulkWalk fuel x mr root w = (o, w') ->
  exists seeds,
    dispatched w' = dispatched w ++ map (bulk_request x mr) seeds
    /\ Forall (fun s => strings_HasPrefix s root = true) seeds.
Proof.
  unfold BulkWalk. destruct (String.eqb root "").
  - apply asks_ret.
  - apply asks_bulkWalk. apply prefix_refl.
Qed.

Lemma after_batches_panic (root : string) (bs : list (list SnmpPDU))
  (msg : string) w :
  after_batches root bs (Panic msg, w) = (Panic msg, w).
Proof.
  induction bs as [|b bs IH]; [reflexivity|].
  unfold after_batches in *. cbn [fold_right]. rewrite IH. reflexivity.
Qed.

(** X15.  A fault recovered inside [GetBulk] (nil response, nil
    error) at any depth makes the blocking bulk walk panic on the nil
    response: the fault that [GetBulk] swallowed escapes from
    [BulkWalk], and the results gathered so far are lost. *)
Theorem BulkWalk_panics_on_recovered_fault x (mr : Z) (root : string) w bs
  s' w' w'' (k : nat) :
  root <> "" ->
  bulk_run x mr root root w bs s' w' ->
  GetBulk x 0 mr [s'] w' = (Ret (None, None), w'') ->
  BulkWalk (S k + List.length bs) x mr root w
  = (Panic "invalid memory address or nil pointer dereference", w'').
Proof.
  intros Hroot Hrun HG.
  rewrite (BulkWalk_nonempty (S k + List.length bs) x mr Hroot).
  rewrite (bulk_run_walk Hrun), bulkWalk_unfold, HG.
  apply after_batches_panic.
Qed.

End BulkProperties.

(** ** Faults, panics and other channels *)

Section FaultProperties.
Context {NetState : Type} {codec : Codec}.
Implicit Types (x : Conn NetState) (w : World NetState).

Unset Implicit Arguments.

(** [open_after_panic c m]: when [m], started on the open channel
    [c], panics, the channel is still open. *)
Definition open_after_panic {A} (c : nat) (m : M (NetState := NetState) A)
  : Prop :=
  forall w msg w', closed (chans w c) = false -> m w = (Panic msg, w') ->
    closed (chans w' c) = false.

Lemma sends_open {A} (c : nat) (m : M (NetState := NetState) A) w o w' :
  sends c m -> closed (chans w c) = false -> m w = (o, w') ->
  closed (chans w' c) = false.
Proof.
  intros Hm Ho H. destruct (Hm _ _ _ Ho H) as [vs C].
  rewrite C, closed_app, Ho, closed_sends. reflexivity.
Qed.

Lemma open_after_panic_bind {A B} (c : nat) (m : M A) (f : A -> M B) :
  sends c m -> (forall a, open_after_panic c (f a)) ->
  open_after_panic c (bind m f).
Proof.
  intros Hm Hf w msg w' Ho H. unfold bind in H.
  destruct (m w) as [[a|e|] w1] eqn:E.
  - exact (Hf a _ _ _ (sends_open c m _ _ _ Hm Ho E) H).
  - inversion H; subst. exact (sends_open c m _ _ _ Hm Ho E).
  - discriminate.
Qed.

Lemma open_after_panic_close {A} (c : nat) (a : A) :
  open_after_panic c (chan_close c ;;; ret a).
Proof.
  intros w msg w' Ho H. unfold bind, chan_close, ret in H.
  rewrite Ho in H. discriminate.
Qed.

Lemma open_after_panic_stream_range
  (rec : string -> M (NetState := NetState) (list SnmpPDU * option error))
  (root : string) (c : nat) (len : nat) (vs : list SnmpPDU) :
  (forall s, grows (rec s)) ->
  forall i, open_after_panic c (stream_range rec root c len i vs).
Proof.
  intros Hrec. induction vs as [|v rest IH]; intros i; cbn [stream_range].
  - apply open_after_panic_close.
  - destruct (is_endOfMib v); [apply open_after_panic_close|].
    destruct (strings_HasPrefix (Name v) root); [|apply IH].
    apply open_after_panic_bind; [apply sends_chan_send | intros _].
    destruct (Z.of_nat i =? Z.of_nat len - 1); [|apply IH].
    apply open_after_panic_bind; [apply grows_sends, Hrec|].
    intros [sub [e|]]; simpl; [apply open_after_panic_close|].
    apply open_after_panic_bind; [apply sends_send_all | intros _; apply IH].
Qed.

(** X16.  When [StreamBulkWalk] panics (as it does on the nil
    response of a fault recovered inside [GetBulk], at any depth), it
    has not closed its channel: the channel, open at the start, is
    still open, and a consumer ranging over it is never released. *)
Theorem StreamBulkWalk_panic_leaves_channel_open (fuel : nat) x (mr : Z)
  (oid : string) (c : nat) w (msg : string) w' :
  closed (chans w c) = false ->
  StreamBulkWalk fuel x mr oid c w = (Panic msg, w') ->
  closed (chans w' c) = false.
Proof.
  revert w msg w'.
  change (open_after_panic c (StreamBulkWalk fuel x mr oid c)).
  unfold StreamBulkWalk.
  apply open_after_panic_bind; [apply grows_sends, grows_GetBulk|].
  intros [res [e|]]; simpl; [apply open_after_panic_close|].
  apply open_after_panic_bind; [apply grows_sends, quiet_grows, quiet_deref|].
  intros p. apply open_after_panic_stream_range.
  intros s. apply grows_bulkWalk.
Qed.

Lemma through_recover_calm x (p : SnmpPacket) w (msg : string) w' :
  through_recover (sendPacket x p w) <> (Panic msg, w').
Proof. destruct (sendPacket x p w) as [[a|e|] w1]; discriminate. Qed.

Lemma Walk_loop_calm x (root : string) (fuel : nat) :
  forall oid results w (msg : string),
    fst (Walk_loop fuel x root oid results w) <> Panic msg.
Proof.
  induction fuel as [|fuel IH]; intros oid results w msg.
  - discriminate.
  - rewrite Walk_loop_unfold.
    destruct (GetNext x oid w) as [[[[p|] [err|]]|m|] w1] eqn:E;
      try discriminate.
    + destruct (Packet.Variables p) as [|v0 ?]; [discriminate|].
      destruct (contains_root root v0); [apply IH | discriminate].
    + rewrite GetNext_eq in E. destruct (through_recover_calm _ _ _ _ _ E).
Qed.

(** [calm_on c m]: started on the open channel [c], [m] does not panic. *)
Definition calm_on {A} (c : nat) (m : M (NetState := NetState) A) : Prop :=
  forall w o w', closed (chans w c) = false -> m w = (o, w') ->
    forall msg, o <> Panic msg.

Lemma calm_on_bind {A B} (c : nat) (m : M A) (f : A -> M B) :
  sends c m -> calm_on c m -> (forall a, calm_on c (f a)) ->
  calm_on c (bind m f).
Proof.
  intros Hs Hm Hf w o w' Ho H. unfold bind in H.
  destruct (m w) as [[a|e|] w1] eqn:E.
  - exact (Hf a _ _ _ (sends_open c m _ _ _ Hs Ho E) H).
  - destruct (Hm _ _ _ Ho E e eq_refl).
  - inversion H; subst. discriminate.
Qed.

Lemma calm_on_close {A} (c : nat) (a : A) : calm_on c (chan_close c ;;; ret a).
Proof.
  intros w o w' Ho H. unfold bind, chan_close, ret in H.
  rewrite Ho in H. inversion H; subst. discriminate.
Qed.

Lemma calm_on_chan_send (c : nat) (v : SnmpPDU) : calm_on c (chan_send c v).
Proof.
  intros w o w' Ho H. unfold chan_send in H.
  rewrite Ho in H. inversion H; subst. discriminate.
Qed.

Lemma calm_on_GetNext x (oid : string) (c : nat) : calm_on c (GetNext x oid).
Proof.
  intros w o w' _ H msg ->. rewrite GetNext_eq in H.
  exact (through_recover_calm _ _ _ _ _ H).
Qed.

Lemma StreamWalk_loop_calm x (root : string) (c : nat) (fuel : nat) :
  forall oid, calm_on c (StreamWalk_loop fuel x root oid c).
Proof.
  induction fuel as [|fuel IH]; intros oid.
  - intros w o w' _ H. inversion H; subst. discriminate.
  - cbn [StreamWalk_loop].
    apply calm_on_bind;
      [apply grows_sends, grows_GetNext | apply calm_on_GetNext|].
    intros [res [e|]]; simpl; [apply calm_on_close|].
    destruct res as [res|]; [|apply calm_on_close].
    destruct (Packet.Variables res) as [|v0 ?]; [apply calm_on_close|].
    destruct (strings_Index (Name v0) root >? -1); [|apply calm_on_close].
    apply calm_on_bind;
      [apply sends_chan_send | apply calm_on_chan_send | intros _; apply IH].
Qed.

(** X17.  The sequential walks never panic, whatever the connection
    and the codec do: [Walk] always, [StreamWalk] whenever its channel
    is open when it starts.  (Every fault is swallowed by [GetNext];
    compare the bulk walks.) *)
Theorem sequential_walks_never_panic (fuel : nat) x (oid : string) (c : nat)
  w (msg : string) :
  fst (Walk fuel x oid w) <> Panic msg
  /\ (closed (chans w c) = false ->
      fst (StreamWalk fuel x oid c w) <> Panic msg).
Proof.
  split.
  - unfold Walk. destruct (String.eqb oid ""); [discriminate|].
    apply Walk_loop_calm.
  - intros Ho. destruct (StreamWalk fuel x oid c w) as [o w'] eqn:E.
    simpl. revert E. unfold StreamWalk.
    destruct (String.eqb oid ""); intros E.
    + exact (calm_on_close c _ _ _ _ Ho E msg).
    + exact (StreamWalk_loop_calm x oid c fuel oid _ _ _ Ho E msg).
Qed.

(** [only_on c m]: [m] changes no channel other than [c]. *)
Definition only_on {A} (c : nat) (m : M (NetState := NetState) A) : Prop :=
  forall w o w' k, k <> c -> m w = (o, w') -> chans w' k = chans w k.

Lemma only_on_grows {A} (c : nat) (m : M A) : grows m -> only_on c m.
Proof.
  intros G w o w' k _ H. destruct (G _ _ _ H) as [_ C]. rewrite C.
  reflexivity.
Qed.

Lemma only_on_bind {A B} (c : nat) (m : M A) (f : A -> M B) :
  only_on c m -> (forall a, only_on c (f a)) -> only_on c (bind m f).
Proof.
  intros Hm Hf w o w' k Hk H. unfold bind in H.
  destruct (m w) as [[a|e|] w1] eqn:E.
  - rewrite (Hf a _ _ _ k Hk H). exact (Hm _ _ _ k Hk E).
  - inversion H; subst. exact (Hm _ _ _ k Hk E).
  - inversion H; subst. exact (Hm _ _ _ k Hk E).
Qed.

Lemma only_on_chan_send (c : nat) (v : SnmpPDU) : only_on c (chan_send c v).
Proof.
  intros w o w' k Hk H. unfold chan_send in H.
  destruct (closed (chans w c)); inversion H; subst; [reflexivity|].
  simpl. apply Nat.eqb_neq in Hk. rewrite Hk. reflexivity.
Qed.

Lemma only_on_chan_close (c : nat) : only_on c (chan_close c).
Proof.
  intros w o w' k Hk H. unfold chan_close in H.
  destruct (closed (chans w c)); inversion H; subst; [reflexivity|].
  simpl. apply Nat.eqb_neq in Hk. rewrite Hk. reflexivity.
Qed.

Lemma only_on_close_ret {A} (c : nat) (a : A) :
  only_on c (chan_close c ;;; ret a).
Proof.
  apply only_on_bind; [apply only_on_chan_close|].
  intros _. apply only_on_grows, grows_ret.
Qed.

Lemma only_on_send_all (c : nat) (vs : list SnmpPDU) :
  only_on c (send_all c vs).
Proof.
  induction vs as [|v vs IH]; cbn [send_all].
  - apply only_on_grows, grows_ret.
  - apply only_on_bind; [apply only_on_chan_send | intros _; exact IH].
Qed.

Lemma only_on_StreamWalk_loop x (root : string) (c : nat) (fuel : nat) :
  forall oid, only_on c (StreamWalk_loop fuel x root oid c).
Proof.
  induction fuel as [|fuel IH]; intros oid.
  - apply only_on_grows, grows_out_of_fuel.
  - cbn [StreamWalk_loop].
    apply only_on_bind; [apply only_on_grows, grows_GetNext|].
    intros [res [e|]]; simpl; [apply only_on_close_ret|].
    destruct res as [res|]; [|apply only_on_close_ret].
    destruct (Packet.Variables res) as [|v0 ?]; [apply only_on_close_ret|].
    destruct (strings_Index (Name v0) root >? -1); [|apply only_on_close_ret].
    apply only_on_bind; [apply only_on_chan_send | intros _; apply IH].
Qed.

Lemma only_on_stream_range
  (rec : string -> M (NetState := NetState) (list SnmpPDU * option error))
  (root : string) (c : nat) (len : nat) (vs : list SnmpPDU) :
  (forall s, grows (rec s)) ->
  forall i, only_on c (stream_range rec root c len i vs).
Proof.
  intros Hrec. induction vs as [|v rest IH]; intros i; cbn [stream_range].
  - apply only_on_close_ret.
  - destruct (is_endOfMib v); [apply only_on_close_ret|].
    destruct (strings_HasPrefix (Name v) root); [|apply IH].
    apply only_on_bind; [apply only_on_chan_send | intros _].
    destruct (Z.of_nat i =? Z.of_nat len - 1); [|apply IH].
    apply only_on_bind; [apply only_on_grows, Hrec|].
    intros [sub [e|]]; simpl; [apply only_on_close_ret|].
    apply only_on_bind; [apply only_on_send_all | intros _; apply IH].
Qed.

(** X18.  A walk leaves alone every channel that is not its own: the
    blocking walks change no channel at all, the streaming walks only
    the channel they were given, however they end. *)
Theorem walks_touch_only_their_channel (fuel : nat) x (mr : Z) (oid : string)
  (c : nat) w :
  chans (snd (Walk fuel x oid w)) = chans w
  /\ chans (snd (BulkWalk fuel x mr oid w)) = chans w
  /\ (forall k, k <> c ->
        chans (snd (StreamWalk fuel x oid c w)) k = chans w k
        /\ chans (snd (StreamBulkWalk fuel x mr oid c w)) k = chans w k).
Proof.
  split; [|split].
  - unfold Walk. destruct (String.eqb oid ""); [reflexivity|].
    destruct (Walk_loop fuel x oid oid [] w) as [o w'] eqn:E.
    pose proof (grows_Walk_loop x oid fuel oid []) as G.
    exact (proj2 (G _ _ _ E)).
  - unfold BulkWalk. destruct (String.eqb oid ""); [reflexivity|].
    destruct (_bulkWalk fuel x mr oid oid w) as [o w'] eqn:E.
    pose proof (grows_bulkWalk x mr oid fuel oid) as G.
    exact (proj2 (G _ _ _ E)).
  - intros k Hk. split.
    + destruct (StreamWalk fuel x oid c w) as [o w'] eqn:E. simpl.
      revert E. unfold StreamWalk. destruct (String.eqb oid ""); intros E.
      * exact (only_on_close_ret c _ _ _ _ k Hk E).
      * exact (only_on_StreamWalk_loop x oid c fuel oid _ _ _ k Hk E).
    + destruct (StreamBulkWalk fuel x mr oid c w) as [o w'] eqn:E. simpl.
      revert E. unfold StreamBulkWalk. intros E.
      refine (only_on_bind c _ _ _ _ _ _ _ k Hk E).
      * apply only_on_grows, grows_GetBulk.
      * intros [res [e|]]; simpl; [apply only_on_close_ret|].
        apply only_on_bind; [apply only_on_grows, quiet_grows, quiet_deref|].
        intros p. apply only_on_stream_range. intros s. apply grows_bulkWalk.
Qed.

End FaultProperties.

(** ** Properties of the session set-up *)

Section SessionProperties.
Context {NetState : Type} {codec : Codec}.
Implicit Types (x : Conn NetState).

Unset Implicit Arguments.

Lemma wrap64_small (z : Z) :
  - 2 ^ 63 <= z < 2 ^ 63 -> wrap64 z = z.
Proof.
  intros H. unfold wrap64. rewrite Z.mod_small; lia.
Qed.

Lemma wrap64_once (z : Z) :
  2 ^ 63 <= z < 2 ^ 64 -> wrap64 z = z - 2 ^ 64.
Proof.
  intros H. unfold wrap64.
  rewrite <- (Z.mod_unique (z + 2 ^ 63) (2 ^ 64) 1 (z + 2 ^ 63 - 2 ^ 64));
    lia.
Qed.

(** X19.  [SetTimeout] changes the timeout only.  A zero or negative
    argument gives the default of 5 seconds; an argument up to
    9223372036 seconds is stored exactly, in nanoseconds; beyond that
    the 64-bit product wraps, and up to 18446744073 seconds the stored
    timeout is negative. *)
Theorem SetTimeout_stores_seconds_or_default x (seconds : Z) :
  (Target (SetTimeout x seconds) = Target x
   /\ Community (SetTimeout x seconds) = Community x
   /\ Version (SetTimeout x seconds) = Version x
   /\ conn (SetTimeout x seconds) = conn x)
  /\ (seconds <= 0 -> Timeout (SetTimeout x seconds) = 5 * time_Second)
  /\ (0 < seconds <= 9223372036 ->
      Timeout (SetTimeout x seconds) = seconds * time_Second)
  /\ (9223372036 < seconds <= 18446744073 ->
      Timeout (SetTimeout x seconds) = seconds * time_Second - 2 ^ 64
      /\ Timeout (SetTimeout x seconds) < 0).
Proof.
  split; [repeat split|]. unfold SetTimeout, Duration_seconds, time_Second.
  cbn [Timeout]. split; [|split].
  - intros H. apply Z.leb_le in H. rewrite H. reflexivity.
  - intros H. destruct (Z.leb_spec seconds 0); [lia|].
    apply wrap64_small. lia.
  - intros H. destruct (Z.leb_spec seconds 0); [lia|].
    rewrite wrap64_once; lia.
Qed.

Lemma index_finds_colon (t s : string) :
  exists n, String.index 0 ":" (t ++ ":" ++ s)%string = Some n.
Proof.
  induction t as [|a t [n IH]].
  - exists 0%nat. destruct s; reflexivity.
  - cbn [String.append String.index] in *.
    destruct (String.prefix ":" (String a (t ++ String ":" s)));
      [exists 0%nat; reflexivity|].
    rewrite IH. exists (S n). reflexivity.
Qed.

Lemma Contains_colon_appended (t s : string) :
  strings_Contains (t ++ ":" ++ s)%string ":" = true.
Proof.
  unfold strings_Contains, strings_Index.
  destruct (index_finds_colon t s) as [n E]. rewrite E.
  apply Z.geb_le. lia.
Qed.

(** X20.  A session that [Connect] returns comes with a nil error and
    holds an address with a colon in it: the target as given when it
    has a colon (so a bare IPv6 literal gets no port), and otherwise
    the target followed by a colon and the default port in decimal.
    That address is the one that was dialled, over udp, with the
    timeout that the session keeps; community and version are stored
    as given. *)
Theorem Connect_session
  (dial : string -> string -> Z -> option (NetConn NetState) * option error)
  (port : Z) (target community : string) (version : SnmpVersion) (timeout : Z)
  x (e : option error) :
  Connect dial port target community version timeout = (Some x, e) ->
  e = None
  /\ strings_Contains (Target x) ":" = true
  /\ (strings_Contains target ":" = true -> Target x = target)
  /\ (strings_Contains target ":" = false ->
      Target x = (target ++ ":" ++ Sprintf_d port)%string)
  /\ Community x = community
  /\ Version x = version
  /\ Timeout x = Duration_seconds timeout
  /\ dial "udp" (Target x) (Timeout x) = (conn x, None).
Proof.
  unfold Connect. intros H.
  destruct (strings_Contains target ":") eqn:Ec; cbn [negb] in H;
    match type of H with
    | context [dial "udp" ?a ?d] =>
        destruct (dial "udp" a d) as [c0 [err|]] eqn:Ed
    end;
    cbn [fst snd] in H; inversion H; subst; cbn [Target Community Version
                                                   Timeout conn];
    repeat split; try assumption; try discriminate; try reflexivity.
  apply Contains_colon_appended.
Qed.


End SessionProperties.

(** ** Further runs on the simulated agent *)

Definition world_small : World Sim.Agent := Sim.world mib_small.

Definition world_small_1 : World Sim.Agent :=
  snd (GetNext (codec := Sim.codec) Sim.session "1.3" world_small).

Definition world_small_2 : World Sim.Agent :=
  snd (GetNext (codec := Sim.codec) Sim.session "1.3.1" world_small_1).

Definition world_small_3 : World Sim.Agent :=
  snd (GetNext (codec := Sim.codec) Sim.session "1.3.2" world_small_2).

Lemma world_small_run :
  next_run (codec := Sim.codec) Sim.session "1.3" "1.3" world_small
           [Sim.leaf "1.3.1" "a"; Sim.leaf "1.3.2" "b"] "1.3.2" world_small_2.
Proof.
  apply (@next_step Sim.Agent Sim.codec Sim.session "1.3" "1.3" world_small
           (reply [Sim.leaf "1.3.1" "a"]) world_small_1 (Sim.leaf "1.3.1" "a")
           [] [Sim.leaf "1.3.2" "b"] "1.3.2" world_small_2);
    [by_running | reflexivity | reflexivity |].
  apply (@next_step Sim.Agent Sim.codec Sim.session "1.3" "1.3.1"
           world_small_1 (reply [Sim.leaf "1.3.2" "b"]) world_small_2
           (Sim.leaf "1.3.2" "b") [] [] "1.3.2" world_small_2);
    [by_running | reflexivity | reflexivity |].
  apply next_here.
Defined.

Lemma world_small_boundary :
  GetNext (codec := Sim.codec) Sim.session "1.3.2" world_small_2
  = (Ret (Some (reply [Sim.leaf "1.4.1" "c"]), None), world_small_3).
Proof. by_running. Defined.

Lemma Walk_returns_run_before_boundary_witness :
  Walk (codec := Sim.codec) 3 Sim.session "1.3" world_small
  = (Ret ([Sim.leaf "1.3.1" "a"; Sim.leaf "1.3.2" "b"], None), world_small_3)
  /\ dispatched world_small_3
     = dispatched world_small
       ++ map (GetNext_packet Sim.session) ["1.3"; "1.3.1"; "1.3.2"].
Proof.
  exact (@Walk_returns_run_before_boundary Sim.Agent Sim.codec Sim.session
           "1.3" world_small [Sim.leaf "1.3.1" "a"; Sim.leaf "1.3.2" "b"]
           "1.3.2" world_small_2 (reply [Sim.leaf "1.4.1" "c"]) world_small_3
           (Sim.leaf "1.4.1" "c") [] 0%nat ltac:(discriminate)
           world_small_run world_small_boundary eq_refl eq_refl).
Defined.

Definition world_pair_1 : World Sim.Agent :=
  snd (GetNext (codec := Sim.codec) Sim.session "1.3" world_two).

Definition world_pair_2 : World Sim.Agent :=
  snd (GetNext (codec := Sim.codec) Sim.session "1.3.1" world_pair_1).

Definition world_pair_3 : World Sim.Agent :=
  snd (GetNext (codec := Sim.codec) Sim.session "1.3.2" world_pair_2).

Lemma world_pair_run :
  next_run (codec := Sim.codec) Sim.session "1.3" "1.3" world_two
           [Sim.leaf "1.3.1" "a"; Sim.leaf "1.3.2" "b"] "1.3.2" world_pair_2.
Proof.
  apply (@next_step Sim.Agent Sim.codec Sim.session "1.3" "1.3" world_two
           (reply [Sim.leaf "1.3.1" "a"]) world_pair_1 (Sim.leaf "1.3.1" "a")
           [] [Sim.leaf "1.3.2" "b"] "1.3.2" world_pair_2);
    [by_running | reflexivity | reflexivity |].
  apply (@next_step Sim.Agent Sim.codec Sim.session "1.3" "1.3.1"
           world_pair_1 (reply [Sim.leaf "1.3.2" "b"]) world_pair_2
           (Sim.leaf "1.3.2" "b") [] [] "1.3.2" world_pair_2);
    [by_running | reflexivity | reflexivity |].
  apply next_here.
Defined.

Lemma world_pair_error :
  GetNext (codec := Sim.codec) Sim.session "1.3.2" world_pair_2
  = (Ret (None, Some "No responses received."), world_pair_3).
Proof. by_running. Defined.

Lemma Walk_dispatch_error_keeps_results_witness :
  Walk (codec := Sim.codec) 3 Sim.session "1.3" world_two
  = (Ret ([Sim.leaf "1.3.1" "a"; Sim.leaf "1.3.2" "b"],
          Some "No responses received."), world_pair_3).
Proof.
  exact (@Walk_dispatch_error_keeps_results Sim.Agent Sim.codec Sim.session
           "1.3" world_two [Sim.leaf "1.3.1" "a"; Sim.leaf "1.3.2" "b"]
           "1.3.2" world_pair_2 None "No responses received." world_pair_3
           0%nat ltac:(discriminate) world_pair_run world_pair_error).
Defined.

Definition world_unconnected_next : World Sim.Agent :=
  snd (GetNext (codec := Sim.codec) Sim.unconnected "1.3" world_small).

Lemma world_unconnected_fault :
  GetNext (codec := Sim.codec) Sim.unconnected "1.3" world_small
  = (Ret (None, None), world_unconnected_next).
Proof. by_running. Defined.

Lemma Walk_fault_ends_walk_silently_witness :
  Walk (codec := Sim.codec) 1 Sim.unconnected "1.3" world_small
  = (Ret ([], None), world_unconnected_next).
Proof.
  exact (@Walk_fault_ends_walk_silently Sim.Agent Sim.codec Sim.unconnected
           "1.3" world_small [] "1.3" world_small world_unconnected_next
           0%nat ltac:(discriminate)
           (@next_here Sim.Agent Sim.codec Sim.unconnected "1.3" "1.3"
              world_small)
           world_unconnected_fault).
Defined.

Lemma world_pair_walk :
  Walk (codec := Sim.codec) 3 Sim.session "1.3" world_two
  = (Ret ([Sim.leaf "1.3.1" "a"; Sim.leaf "1.3.2" "b"],
          Some "No responses received."),
     snd (Walk (codec := Sim.codec) 3 Sim.session "1.3" world_two)).
Proof. by_running. Defined.

Lemma Walk_results_contain_root_witness :
  Forall (fun v => contains_root "1.3" v = true)
         [Sim.leaf "1.3.1" "a"; Sim.leaf "1.3.2" "b"].
Proof.
  exact (proj2 (Forall_forall _ _)
           (@Walk_results_contain_root Sim.Agent Sim.codec 3 Sim.session
              "1.3" world_two _ _ _ world_pair_walk)).
Defined.

Lemma StreamWalk_sends_what_Walk_returns_witness :
  exists ws,
    StreamWalk (codec := Sim.codec) 3 Sim.session "1.3" 0 world_two
    = (Ret (Some "No responses received."), ws)
    /\ chans ws 0%nat
       = chans world_two 0%nat
         ++ map Send [Sim.leaf "1.3.1" "a"; Sim.leaf "1.3.2" "b"] ++ [Close]
    /\ dispatched ws
       = dispatched (snd (Walk (codec := Sim.codec) 3 Sim.session "1.3"
                            world_two))
    /\ net ws
       = net (snd (Walk (codec := Sim.codec) 3 Sim.session "1.3" world_two)).
Proof.
  exact (@StreamWalk_sends_what_Walk_returns Sim.Agent Sim.codec 3
           Sim.session "1.3" 0%nat world_two _ _ _ eq_refl world_pair_walk).
Defined.

Lemma world_pair_bulk :
  _bulkWalk (codec := Sim.codec) 3 Sim.session 2 "1.3" "1.3" world_two
  = (Ret ([Sim.leaf "1.3.1" "a"; Sim.leaf "1.3.2" "b"],
          Some "No responses received."),
     snd (_bulkWalk (codec := Sim.codec) 3 Sim.session 2 "1.3" "1.3"
            world_two)).
Proof. by_running. Defined.

Lemma StreamBulkWalk_sends_what_bulk_walk_returns_witness :
  exists ws,
    StreamBulkWalk (codec := Sim.codec) 2 Sim.session 2 "1.3" 0 world_two
    = (Ret (Some "No responses received."), ws)
    /\ chans ws 0%nat
       = chans world_two 0%nat
         ++ map Send [Sim.leaf "1.3.1" "a"; Sim.leaf "1.3.2" "b"] ++ [Close]
    /\ dispatched ws
       = dispatched (snd (_bulkWalk (codec := Sim.codec) 3 Sim.session 2
                            "1.3" "1.3" world_two))
    /\ net ws
       = net (snd (_bulkWalk (codec := Sim.codec) 3 Sim.session 2
                     "1.3" "1.3" world_two)).
Proof.
  exact (@StreamBulkWalk_sends_what_bulk_walk_returns Sim.Agent Sim.codec 2
           Sim.session 2 "1.3" 0%nat world_two _ _ _ eq_refl world_pair_bulk).
Defined.

Definition world_small_sent : World Sim.Agent :=
  snd (sendPacket (codec := Sim.codec) Sim.session
         (GetNext_packet Sim.session "1.3") world_small).

Lemma world_small_exchange :
  sendPacket (codec := Sim.codec) Sim.session
             (GetNext_packet Sim.session "1.3") world_small
  = (Ret (Some (reply [Sim.leaf "1.3.1" "a"]), None), world_small_sent).
Proof. by_running. Defined.

Lemma sendPacket_response_or_error_witness :
  well_formed_result (Some (reply [Sim.leaf "1.3.1" "a"]), None).
Proof.
  exact (@sendPacket_response_or_error Sim.Agent Sim.codec Sim.session
           (GetNext_packet Sim.session "1.3") world_small _ _
           world_small_exchange).
Defined.


Lemma sendPacket_writes_at_most_once_witness :
  (written world_small_sent = written world_small
   \/ exists buf,
        marshal (Codec := Sim.codec) (GetNext_packet Sim.session "1.3")
        = Ret (buf, None)
        /\ written world_small_sent = written world_small ++ [buf])
  /\ (forall buf err,
        marshal (Codec := Sim.codec) (GetNext_packet Sim.session "1.3")
        = Ret (buf, Some err) ->
        conn Sim.session <> None ->
        Ret (Some (reply [Sim.leaf "1.3.1" "a"]), @None error)
        = Ret (None, Some err)
        /\ written world_small_sent = written world_small).
Proof.
  exact (@sendPacket_writes_at_most_once Sim.Agent Sim.codec Sim.session
           (GetNext_packet Sim.session "1.3") world_small _ _
           world_small_exchange).
Defined.

Lemma world_deep_walk :
  BulkWalk (codec := Sim.codec) 2 Sim.session 3 "1.3" world_deep
  = (Ret ([Sim.leaf "1.3.1" "a"; Sim.leaf "1.3.2" "b";
           Sim.leaf "1.3.3" "c"; Sim.leaf "1.3.4" "d"], None),
     snd (BulkWalk (codec := Sim.codec) 2 Sim.session 3 "1.3" world_deep)).
Proof. by_running. Defined.

Lemma BulkWalk_results_in_range_witness :
  Forall (fun v => strings_HasPrefix (Name v) "1.3" = true
                   /\ is_endOfMib v = false)
         [Sim.leaf "1.3.1" "a"; Sim.leaf "1.3.2" "b";
          Sim.leaf "1.3.3" "c"; Sim.leaf "1.3.4" "d"].
Proof.
  exact (proj2 (Forall_forall _ _)
           (@BulkWalk_results_in_range Sim.Agent Sim.codec 2 Sim.session 3
              "1.3" world_deep _ _ _ world_deep_walk)).
Defined.

Lemma BulkWalk_requests_stay_in_subtree_witness :
  exists seeds,
    dispatched (snd (BulkWalk (codec := Sim.codec) 2 Sim.session 3 "1.3"
                       world_deep))
    = dispatched world_deep ++ map (bulk_request Sim.session 3) seeds
    /\ Forall (fun s => strings_HasPrefix s "1.3" = true) seeds.
Proof.
  exact (@BulkWalk_requests_stay_in_subtree Sim.Agent Sim.codec 2 Sim.session
           3 "1.3" world_deep _ _ world_deep_walk).
Defined.

Definition world_unconnected_bulk : World Sim.Agent :=
  snd (GetBulk (codec := Sim.codec) Sim.unconnected 0 2 ["1.3"] world_small).

Lemma world_unconnected_bulk_fault :
  GetBulk (codec := Sim.codec) Sim.unconnected 0 2 ["1.3"] world_small
  = (Ret (None, None), world_unconnected_bulk).
Proof. by_running. Defined.

Lemma BulkWalk_panics_on_recovered_fault_witness :
  BulkWalk (codec := Sim.codec) 1 Sim.unconnected 2 "1.3" world_small
  = (Panic "invalid memory address or nil pointer dereference",
     world_unconnected_bulk).
Proof.
  exact (@BulkWalk_panics_on_recovered_fault Sim.Agent Sim.codec
           Sim.unconnected 2 "1.3" world_small [] "1.3" world_small
           world_unconnected_bulk 0%nat ltac:(discriminate)
           (@run_here Sim.Agent Sim.codec Sim.unconnected 2 "1.3" "1.3"
              world_small)
           world_unconnected_bulk_fault).
Defined.

Definition world_unconnected_stream : World Sim.Agent :=
  snd (StreamBulkWalk (codec := Sim.codec) 1 Sim.unconnected 2 "1.3" 0
         world_small).

Lemma world_unconnected_stream_panic :
  StreamBulkWalk (codec := Sim.codec) 1 Sim.unconnected 2 "1.3" 0 world_small
  = (Panic "invalid memory address or nil pointer dereference",
     world_unconnected_stream).
Proof. by_running. Defined.

Lemma StreamBulkWalk_panic_leaves_channel_open_witness :
  closed (chans world_unconnected_stream 0%nat) = false.
Proof.
  exact (@StreamBulkWalk_panic_leaves_channel_open Sim.Agent Sim.codec 1
           Sim.unconnected 2 "1.3" 0%nat world_small _ _ eq_refl
           world_unconnected_stream_panic).
Defined.

(** A dialler that reaches the simulated agent at any address. *)
Definition dial_agent (network address : string) (timeout : Z)
  : option (NetConn Sim.Agent) * option error :=
  (Some Sim.agent_conn, None).

Lemma Connect_session_witness :
  @None error = None
  /\ strings_Contains "192.0.2.1:161" ":" = true
  /\ (strings_Contains "192.0.2.1" ":" = true ->
      "192.0.2.1:161" = "192.0.2.1")
  /\ (strings_Contains "192.0.2.1" ":" = false ->
      "192.0.2.1:161" = ("192.0.2.1" ++ ":" ++ Sprintf_d DefaultPort)%string)
  /\ "public" = "public"
  /\ (1 : SnmpVersion) = 1
  /\ 5000000000 = Duration_seconds 5
  /\ dial_agent "udp" "192.0.2.1:161" 5000000000
     = (Some Sim.agent_conn, None).
Proof.
  exact (@Connect_session Sim.Agent dial_agent DefaultPort "192.0.2.1"
           "public" 1 5 Sim.session None eq_refl).
Defined.
